(** * OMT raw frame stream receiver (scripts/pc_receiver.py)

    A shallow embedding of the receive loop of [main] and of the part of
    Python's [struct] module it uses, followed by the properties of the
    framing that the design document states.

    Conventions.
    - A byte string ([bytes]) is a [list byte]; Python integers are [N]
      (every integer of the program is non-negative and unbounded).
    - The socket is the list of the chunks that the successive calls of
      [s.recv(65536)] will return; once the list is exhausted the peer has
      closed the connection and every further [recv] returns [b""].
      The bound of 65536 bytes per chunk plays no role in the loop and is
      not imposed on the chunks.
    - The loop is a step function on the local variables of [main]; a run is
      the iteration of the step function under a fuel bound, so that a run
      that never leaves the loop is visible as such.
    - Text written to stderr and bytes written to stdout are recorded, in
      order, as a list of events.
    - Argument parsing and the connection set-up (lines 14-28) precede the
      loop and are not modelled; stdout is taken to accept every write and
      no interrupt arrives, so the two [except] clauses (lines 65-68) are
      never entered. *)

From Stdlib Require Import List Arith NArith Lia Bool.
From Stdlib.Strings Require Import Byte.
Import ListNotations.

Open Scope N_scope.

Definition bytes := list byte.

(** ** The [struct] module, big-endian standard sizes *)

Module Struct.

(** Format characters used by the receiver: [I] is an unsigned 32-bit
    integer, [Q] an unsigned 64-bit integer. The byte order prefix [>]
    is implicit: only big-endian formats are modelled. *)
Inductive fmt_char : Set := I | Q.

Definition size_of (c : fmt_char) : nat :=
  match c with I => 4%nat | Q => 8%nat end.

Definition calcsize (fmt : list fmt_char) : nat :=
  list_sum (map size_of fmt).

(** [int.from_bytes(bs, "big")], with an accumulator. *)
Fixpoint from_bytes_acc (acc : N) (bs : bytes) : N :=
  match bs with
  | [] => acc
  | b :: bs' => from_bytes_acc (acc * 256 + Byte.to_N b) bs'
  end.

Definition from_bytes_big (bs : bytes) : N := from_bytes_acc 0 bs.

Fixpoint unpack_fields (fmt : list fmt_char) (data : bytes) : list N :=
  match fmt with
  | [] => []
  | c :: fmt' =>
      from_bytes_big (firstn (size_of c) data)
        :: unpack_fields fmt' (skipn (size_of c) data)
  end.

(** [struct.unpack(fmt, data)]: [None] stands for [struct.error], raised
    when the buffer does not have exactly [calcsize(fmt)] bytes. *)
Definition unpack (fmt : list fmt_char) (data : bytes) : option (list N) :=
  if Nat.eqb (length data) (calcsize fmt)
  then Some (unpack_fields fmt data)
  else None.

Definition byte_of_N (n : N) : byte :=
  match Byte.of_N (n mod 256) with
  | Some b => b
  | None => x00
  end.

(** [v.to_bytes(w, "big")] for [v < 256 ^ w]. *)
Fixpoint to_bytes_big (w : nat) (v : N) : bytes :=
  match w with
  | O => []
  | S w' => byte_of_N (v / 256 ^ N.of_nat w') :: to_bytes_big w' v
  end.

(** Modelled from the spec: the sender's encoder is not part of the
    script; [pack] is the inverse of [unpack] that the wire protocol
    table describes (each field big-endian, in format order). Values are
    consumed in order; a missing value is encoded as zero. *)
Fixpoint pack (fmt : list fmt_char) (vals : list N) : bytes :=
  match fmt with
  | [] => []
  | c :: fmt' =>
      to_bytes_big (size_of c) (hd 0 vals) ++ pack fmt' (tl vals)
  end.

End Struct.

(** ** Constants and locals of [main] *)

Definition MAGIC : N := 0x4F4D5430.

(** [">IIIIIIQI"] *)
Definition HEADER_FMT : list Struct.fmt_char :=
  [Struct.I; Struct.I; Struct.I; Struct.I; Struct.I; Struct.I;
   Struct.Q; Struct.I].

(** [4 + 4 + 4 + 4 + 4 + 4 + 8 + 4], the value of [need] at the loop head. *)
Definition HEADER_NEED : N := 4 + 4 + 4 + 4 + 4 + 4 + 8 + 4.

(** The eight names bound by the tuple assignment of [struct.unpack]. *)
Record header : Set := mkHeader {
  magic : N;
  width : N;
  height : N;
  stride_y : N;
  stride_u : N;
  stride_v : N;
  ts : N;
  payload_len : N
}.

Definition header_of_fields (vals : list N) : option header :=
  match vals with
  | [m; w; h; sy; su; sv; t; pl] => Some (mkHeader m w h sy su sv t pl)
  | _ => None
  end.

Definition fields_of_header (h : header) : list N :=
  [magic h; width h; height h; stride_y h; stride_u h; stride_v h;
   ts h; payload_len h].

(** The tuple assignment [magic, width, ... = struct.unpack(">IIIIIIQI", data)]. *)
Definition unpack_header (data : bytes) : option header :=
  match Struct.unpack HEADER_FMT data with
  | Some vals => header_of_fields vals
  | None => None
  end.

(** Modelled from the spec: the 36-byte wire image of a header, as the
    sender (which is not part of the script) writes it. *)
Definition pack_header (h : header) : bytes :=
  Struct.pack HEADER_FMT (fields_of_header h).

(** ** Observable output *)

Inductive event : Set :=
| StderrStream (w h sy su sv : N)
    (* "Stream: {width}x{height} strides Y=.. U=.. V=.." *)
| StdoutFrame (h : header) (frame : bytes)
    (* sys.stdout.buffer.write(frame); [h] records the header locals in
       scope at the write, stdout itself receives [frame] only *)
| StderrFrames (n : N)
    (* "Frames: {frame_count}" *)
| StderrBadMagic (m : N)
    (* "Bad magic 0x{magic:08X}" *)
| StderrDone (n : N).
    (* "Done. Frames received: {frame_count}" *)

(** How [main] ends. *)
Inductive outcome : Set :=
| Finished      (* fell out of the loop and printed the final line *)
| Exit3         (* sys.exit(3) after a bad magic *)
| Crashed.      (* an uncaught exception (struct.error, unbound local) *)

Record result : Set := mkResult {
  status : outcome;
  trace : list event
}.

(** ** The receive loop *)

(** Program points at which the loop can wait on the socket: the head of
    [while True] and the head of the inner [while len(buf) < payload_len]. *)
Inductive point : Set := LoopHead | PayloadLoop.

Record state : Set := mkState {
  buf : bytes;
  need : N;
  hdr : option header;
  frame_count : N;
  sock : list bytes;
  out : list event;
  pc : point
}.

(** [s.recv(65536)]: the next chunk, or [b""] once the peer has closed. *)
Definition recv (s : list bytes) : bytes * list bytes :=
  match s with
  | [] => ([], [])
  | chunk :: s' => (chunk, s')
  end.

Definition len (b : bytes) : N := N.of_nat (length b).

(** [b[:n]] and [b[n:]] for a non-negative [n]. *)
Definition slice_to (b : bytes) (n : N) : bytes := firstn (N.to_nat n) b.
Definition slice_from (b : bytes) (n : N) : bytes := skipn (N.to_nat n) b.

(** Leaving the [try] block normally: the final line is printed. *)
Definition finish (st : state) : result :=
  mkResult Finished (out st ++ [StderrDone (frame_count st)]).

(** Lines 56-64: the code that follows the inner loop. *)
Definition after_payload_loop (st : state) (h : header) : state + result :=
  if len (buf st) <? payload_len h then inr (finish st)
  else
    let frame := slice_to (buf st) (payload_len h) in
    let buf' := slice_from (buf st) (payload_len h) in
    let need' := HEADER_NEED in
    let out1 := out st ++ [StdoutFrame h frame] in
    let frame_count' := frame_count st + 1 in
    let out2 :=
      if frame_count' mod 100 =? 0
      then out1 ++ [StderrFrames frame_count'] else out1 in
    inl (mkState buf' need' (hdr st) frame_count' (sock st) out2 LoopHead).

Definition step (st : state) : state + result :=
  match pc st with
  | LoopHead =>
      if len (buf st) <? need st then
        (* lines 38-41 *)
        let (chunk, sock') := recv (sock st) in
        let buf' := buf st ++ chunk in
        match buf' with
        | [] => inr (finish st)
        | _ :: _ =>
            inl (mkState buf' (need st) (hdr st) (frame_count st) sock'
                   (out st) LoopHead)
        end
      else
        (* lines 42-51 *)
        match unpack_header (slice_to (buf st) (need st)) with
        | None => inr (mkResult Crashed (out st))
        | Some h =>
            let buf' := slice_from (buf st) (need st) in
            if negb (magic h =? MAGIC) then
              inr (mkResult Exit3 (out st ++ [StderrBadMagic (magic h)]))
            else
              let out' :=
                if frame_count st =? 0
                then out st ++ [StderrStream (width h) (height h)
                                  (stride_y h) (stride_u h) (stride_v h)]
                else out st in
              inl (mkState buf' (payload_len h) (Some h) (frame_count st)
                     (sock st) out' PayloadLoop)
        end
  | PayloadLoop =>
      match hdr st with
      | None => inr (mkResult Crashed (out st))
      | Some h =>
          if len (buf st) <? payload_len h then
            (* lines 53-55 *)
            let (chunk, sock') := recv (sock st) in
            let buf' := buf st ++ chunk in
            match buf' with
            | [] =>
                after_payload_loop
                  (mkState buf' (need st) (hdr st) (frame_count st) sock'
                     (out st) PayloadLoop) h
            | _ :: _ =>
                inl (mkState buf' (need st) (hdr st) (frame_count st) sock'
                       (out st) PayloadLoop)
            end
          else after_payload_loop st h
      end
  end.

(** Lines 30-33. *)
Definition init (s : list bytes) : state :=
  mkState [] HEADER_NEED None 0 s [] LoopHead.

Fixpoint run (fuel : nat) (st : state) : option result :=
  match fuel with
  | O => None
  | S fuel' =>
      match step st with
      | inr r => Some r
      | inl st' => run fuel' st'
      end
  end.

(** [main] on a socket that delivers [s] and is then closed. *)
Definition main (fuel : nat) (s : list bytes) : option result :=
  run fuel (init s).

(** The state after [n] iterations, or the result if the loop has ended. *)
Fixpoint iter (n : nat) (st : state) : state + result :=
  match n with
  | O => inl st
  | S n' =>
      match step st with
      | inr r => inr r
      | inl st' => iter n' st'
      end
  end.

(** * Notions used to state the properties *)

(** ** Headers and frames on the wire *)

(** Values that fit the widths of a format. *)
Fixpoint fits (fmt : list Struct.fmt_char) (vals : list N) : Prop :=
  match fmt, vals with
  | [], [] => True
  | c :: fmt', v :: vals' =>
      v < 256 ^ N.of_nat (Struct.size_of c) /\ fits fmt' vals'
  | _, _ => False
  end.

(** Every field within its declared width. *)
Definition header_in_range (h : header) : Prop :=
  magic h < 2 ^ 32 /\ width h < 2 ^ 32 /\ height h < 2 ^ 32 /\
  stride_y h < 2 ^ 32 /\ stride_u h < 2 ^ 32 /\ stride_v h < 2 ^ 32 /\
  ts h < 2 ^ 64 /\ payload_len h < 2 ^ 32.

Definition frame : Set := header * bytes.

(** A frame as the protocol defines it: marker present, fields within
    their widths, payload of the declared length. *)
Definition valid_frame (f : frame) : Prop :=
  header_in_range (fst f) /\
  magic (fst f) = MAGIC /\
  payload_len (fst f) = len (snd f).

(** Modelled from the spec: the wire image of a frame and of a sequence of
    frames (header immediately followed by payload, frames back to back). *)
Definition encode_frame (f : frame) : bytes := pack_header (fst f) ++ snd f.

Definition encode_stream (fs : list frame) : bytes :=
  concat (map encode_frame fs).

Definition stream_line (h : header) : event :=
  StderrStream (width h) (height h) (stride_y h) (stride_u h) (stride_v h).

(** What the loop prints once the header of frame number [count]
    (counting from zero) has been read. *)
Definition header_events (count : N) (h : header) : list event :=
  if count =? 0 then [stream_line h] else [].

(** What it writes once the payload is complete. *)
Definition payload_events (count : N) (f : frame) : list event :=
  StdoutFrame (fst f) (snd f)
    :: (if (count + 1) mod 100 =? 0 then [StderrFrames (count + 1)] else []).

Definition frame_events (count : N) (f : frame) : list event :=
  header_events count (fst f) ++ payload_events count f.

Fixpoint stream_events (count : N) (fs : list frame) : list event :=
  match fs with
  | [] => []
  | f :: fs' => frame_events count f ++ stream_events (count + 1) fs'
  end.

(** The (header, payload) pairs handed to the sink, in order. *)
Fixpoint emitted (t : list event) : list frame :=
  match t with
  | [] => []
  | StdoutFrame h p :: t' => (h, p) :: emitted t'
  | _ :: t' => emitted t'
  end.

(** The bytes that reach stdout. *)
Fixpoint stdout_bytes (t : list event) : bytes :=
  match t with
  | [] => []
  | StdoutFrame _ p :: t' => p ++ stdout_bytes t'
  | _ :: t' => stdout_bytes t'
  end.

(** The socket contract: [recv] blocks until at least one byte is
    available, so an empty chunk is only returned at end of stream. *)
Definition chunks_ok (s : list bytes) : Prop := Forall (fun c => c <> []) s.

(** ** Runs *)

Definition reaches (st st' : state) : Prop := exists n, iter n st = inl st'.

Definition halts (st : state) (r : result) : Prop :=
  exists fuel, run fuel st = Some r.

Definition diverges (st : state) : Prop := forall fuel, run fuel st = None.

(** The output so far, of a running or of a finished loop. *)
Definition out_of (c : state + result) : list event :=
  match c with
  | inl st => out st
  | inr r => trace r
  end.

(** ** Every byte is accounted for *)

(** At any moment the bytes of the stream are, in order: the wire images
    of the frames written so far, the header being worked on (inside the
    inner loop), the buffer, and what the socket still holds. *)
Definition accounted (total : bytes) (st : state) : Prop :=
  Forall valid_frame (emitted (out st)) /\
  match pc st with
  | LoopHead =>
      need st = HEADER_NEED /\
      encode_stream (emitted (out st)) ++ buf st ++ concat (sock st) = total
  | PayloadLoop =>
      exists h,
        hdr st = Some h /\ header_in_range h /\ magic h = MAGIC /\
        encode_stream (emitted (out st)) ++ pack_header h ++ buf st
          ++ concat (sock st) = total
  end.

(** The same for a finished run: the frames written are valid and their
    wire images are a prefix of the stream. *)
Definition accounted_result (total : bytes) (r : result) : Prop :=
  Forall valid_frame (emitted (trace r)) /\
  exists rest, encode_stream (emitted (trace r)) ++ rest = total.

(** ** The header layout of the wire protocol table *)

(** The unsigned integer that the [w] bytes at offset [off] of [data]
    denote in big-endian order: byte [i] of the field has weight
    [256 ^ (w - 1 - i)]. *)
Definition be_field (data : bytes) (off w : nat) : N :=
  fold_right N.add 0
    (map (fun i => Byte.to_N (nth (off + i) data x00)
                   * 256 ^ N.of_nat (w - 1 - i))
         (seq 0 w)).

(** The fields of a format laid out from offset [off] on. *)
Fixpoint fields_at (fmt : list Struct.fmt_char) (data : bytes) (off : nat)
  : list N :=
  match fmt with
  | [] => []
  | c :: fmt' =>
      be_field data off (Struct.size_of c)
        :: fields_at fmt' data (off + Struct.size_of c)
  end.

(** The wire protocol table: marker at offset 0, width at 4, height at 8,
    the strides at 12, 16 and 20, the 64-bit timestamp at 24 and the
    payload length at 32, each big-endian. *)
Definition header_at (data : bytes) : header :=
  mkHeader (be_field data 0 4) (be_field data 4 4) (be_field data 8 4)
    (be_field data 12 4) (be_field data 16 4) (be_field data 20 4)
    (be_field data 24 8) (be_field data 32 4).

(** ** What the design document says and the script does not do *)

(** A run reports a truncated stream when it ends with a result other
    than the normal end. *)
Definition reports_truncation (s : list bytes) : Prop :=
  exists fuel r, main fuel s = Some r /\ status r <> Finished.

(** A result carries the frame count when one of the two lines that
    print it is in the trace. *)
Definition reports_count (r : result) : Prop :=
  exists n, In (StderrDone n) (trace r) \/ In (StderrFrames n) (trace r).

(** ** Fatal endings *)

(** The two ways in which a stream of valid frames can go wrong and the
    loop still ends: a header with a wrong marker, followed by anything;
    or a valid header that announces a payload, after which the peer
    closes at once. *)
Inductive fatal_tail : Set :=
| BadMarker (h : header) (rest : bytes)
| ClosedAfterHeader (h : header).

Definition tail_ok (t : fatal_tail) : Prop :=
  match t with
  | BadMarker h _ => header_in_range h /\ magic h <> MAGIC
  | ClosedAfterHeader h =>
      header_in_range h /\ magic h = MAGIC /\ 0 < payload_len h
  end.

Definition tail_bytes (t : fatal_tail) : bytes :=
  match t with
  | BadMarker h rest => pack_header h ++ rest
  | ClosedAfterHeader h => pack_header h
  end.

(** What the script does in each case, after [fs] frames. *)
Definition tail_result (fs : list frame) (t : fatal_tail) : result :=
  match t with
  | BadMarker h _ =>
      mkResult Exit3 (stream_events 0 fs ++ [StderrBadMagic (magic h)])
  | ClosedAfterHeader h =>
      mkResult Finished
        (stream_events 0 fs ++ header_events (N.of_nat (length fs)) h
           ++ [StderrDone (N.of_nat (length fs))])
  end.

(** The line that reports each of them, printed last. *)
Definition tail_line (fs : list frame) (t : fatal_tail) : event :=
  match t with
  | BadMarker h _ => StderrBadMagic (magic h)
  | ClosedAfterHeader _ => StderrDone (N.of_nat (length fs))
  end.

(** ** Sample streams *)

Definition sample_frames : list frame :=
  [ (mkHeader MAGIC 4 2 4 2 2 1000 3, [x01; x02; x03]);
    (mkHeader MAGIC 8 6 8 4 4 2000 0, []);
    (mkHeader MAGIC 4 2 4 2 2 3000 2, [xfe; xff]) ].

(** A header that announces four bytes of payload. *)
Definition sample_header : header := mkHeader MAGIC 4 2 4 2 2 1000 4.

(** A header whose marker is off by one. *)
Definition sample_bad_header : header := mkHeader 0x4F4D5431 4 2 4 2 2 1000 0.

(** The byte source that delivers one byte per [recv]. *)
Definition one_by_one (data : bytes) : list bytes := map (fun x => [x]) data.

(** ** The loop as a function of the byte stream *)

(** What a run does in the end: it stops with a result, or it stays for
    ever in a state in which nothing changes, with the output so far. *)
Inductive behaviour : Set :=
| Ends (r : result)
| Spins (t : list event).

(** The receive loop read as a function of all the bytes the peer sends
    before closing, with [c] frames and the output [o] behind it. Every
    round consumes a header, so [S (length data)] rounds are enough. *)
Fixpoint decode (fuel : nat) (data : bytes) (c : N) (o : list event)
  : behaviour :=
  match fuel with
  | O => Spins o
  | S fuel' =>
      if len data <? HEADER_NEED then
        match data with
        | [] => Ends (mkResult Finished (o ++ [StderrDone c]))
        | _ :: _ => Spins o
        end
      else
        let h := header_at data in
        let rest := slice_from data HEADER_NEED in
        if magic h =? MAGIC then
          let o1 := o ++ header_events c h in
          if len rest <? payload_len h then
            match rest with
            | [] => Ends (mkResult Finished (o1 ++ [StderrDone c]))
            | _ :: _ => Spins o1
            end
          else
            decode fuel' (slice_from rest (payload_len h)) (c + 1)
              (o1 ++ payload_events c (h, slice_to rest (payload_len h)))
        else Ends (mkResult Exit3 (o ++ [StderrBadMagic (magic h)]))
  end.

Definition decode_stream (data : bytes) : behaviour :=
  decode (S (length data)) data 0 [].

(** A run of the loop behaves as [bh] says. *)
Definition behaves (st : state) (bh : behaviour) : Prop :=
  match bh with
  | Ends r => halts st r
  | Spins t => exists st', reaches st st' /\ out st' = t /\ step st' = inl st'
  end.

(** ** The cases of one iteration *)

(** One iteration of the loop, case by case: the state before and what
    [step] yields. *)
Inductive step_case : state -> state + result -> Prop :=
| HeadRecv b n oh c s o :
    len b < n -> b ++ fst (recv s) <> [] ->
    step_case (mkState b n oh c s o LoopHead)
      (inl (mkState (b ++ fst (recv s)) n oh c (snd (recv s)) o LoopHead))
| HeadClosed n oh c s o :
    0 < n -> fst (recv s) = [] ->
    step_case (mkState [] n oh c s o LoopHead)
      (inr (mkResult Finished (o ++ [StderrDone c])))
| HeadStructError b n oh c s o :
    n <= len b -> unpack_header (slice_to b n) = None ->
    step_case (mkState b n oh c s o LoopHead) (inr (mkResult Crashed o))
| HeadBadMagic b n oh c s o h :
    n <= len b -> unpack_header (slice_to b n) = Some h ->
    magic h <> MAGIC ->
    step_case (mkState b n oh c s o LoopHead)
      (inr (mkResult Exit3 (o ++ [StderrBadMagic (magic h)])))
| HeadHeader b n oh c s o h :
    n <= len b -> unpack_header (slice_to b n) = Some h ->
    magic h = MAGIC ->
    step_case (mkState b n oh c s o LoopHead)
      (inl (mkState (slice_from b n) (payload_len h) (Some h) c s
              (o ++ header_events c h) PayloadLoop))
| PayloadUnbound b n c s o :
    step_case (mkState b n None c s o PayloadLoop)
      (inr (mkResult Crashed o))
| PayloadRecv b n h c s o :
    len b < payload_len h -> b ++ fst (recv s) <> [] ->
    step_case (mkState b n (Some h) c s o PayloadLoop)
      (inl (mkState (b ++ fst (recv s)) n (Some h) c (snd (recv s)) o
              PayloadLoop))
| PayloadClosed n h c s o :
    0 < payload_len h -> fst (recv s) = [] ->
    step_case (mkState [] n (Some h) c s o PayloadLoop)
      (inr (mkResult Finished (o ++ [StderrDone c])))
| PayloadFrame b n h c s o :
    payload_len h <= len b ->
    step_case (mkState b n (Some h) c s o PayloadLoop)
      (inl (mkState (slice_from b (payload_len h)) HEADER_NEED (Some h)
              (c + 1) s
              (o ++ payload_events c (h, slice_to b (payload_len h)))
              LoopHead)).

(** ** What holds of the state and of the output at any moment *)

Definition is_stream_line (e : event) : bool :=
  match e with
  | StderrStream _ _ _ _ _ => true
  | _ => false
  end.

(** The two lines that are only ever printed last. *)
Definition is_final_line (e : event) : bool :=
  match e with
  | StderrDone _ | StderrBadMagic _ => true
  | _ => false
  end.

(** At the head of the loop [need] is the header size; in the inner loop
    the header locals are bound. *)
Definition shape_ok (st : state) : Prop :=
  match pc st with
  | LoopHead => need st = HEADER_NEED
  | PayloadLoop => hdr st <> None
  end.

(** The counter is the number of frames written, and neither final line
    has been printed. *)
Definition count_ok (st : state) : Prop :=
  frame_count st = N.of_nat (length (emitted (out st))) /\
  existsb is_final_line (out st) = false.

(** The progress lines in [t] are those of the multiples of 100 up to [c]. *)
Definition progress_ok (c : N) (t : list event) : Prop :=
  forall k, In (StderrFrames k) t <-> (0 < k <= c /\ k mod 100 = 0).

(** The output is empty before the first header; after it, it starts
    with the dimensions of the first header and has no other such line. *)
Definition stream_line_ok (st : state) : Prop :=
  match out st with
  | [] => frame_count st = 0 /\ pc st = LoopHead
  | e :: t =>
      filter is_stream_line t = [] /\
      exists h,
        e = stream_line h /\
        match emitted t with
        | [] => pc st = PayloadLoop /\ hdr st = Some h
        | (h', _) :: _ => h' = h
        end
  end.

(** The same for an output alone. *)
Definition stream_line_first (t : list event) : Prop :=
  (length (filter is_stream_line t) <= 1)%nat /\
  forall h p fs, emitted t = (h, p) :: fs ->
    exists t', t = stream_line h :: t' /\ filter is_stream_line t' = [].

(** A result that is one of the two regular ends of [main], with the
    line that each prints last. *)
Definition regular_end (r : result) : Prop :=
  match status r with
  | Finished =>
      exists t, trace r = t ++ [StderrDone (N.of_nat (length (emitted t)))] /\
                existsb is_final_line t = false
  | Exit3 =>
      exists t m, trace r = t ++ [StderrBadMagic m] /\
                  m <> MAGIC /\ m < 2 ^ 32 /\
                  existsb is_final_line t = false
  | Crashed => True
  end.

(** The value in a "Bad magic" line is the word at the offset that the
    frames written so far leave. *)
Definition bad_magic_located (total : bytes) (r : result) : Prop :=
  forall t m, trace r = t ++ [StderrBadMagic m] ->
    m = be_field total (length (encode_stream (emitted t))) 4.

(** What is left of a stream that the peer cut inside a header, or
    inside the payload of a valid header, with at least one byte of the
    unfinished part delivered. *)
Definition cut_short (part : bytes) : Prop :=
  (part <> [] /\ len part < HEADER_NEED) \/
  exists h p,
    part = pack_header h ++ p /\ header_in_range h /\ magic h = MAGIC /\
    p <> [] /\ len p < payload_len h.

(** The reading of "the line is printed before any payload is received":
    as long as nothing has been printed, the buffer holds at most the 36
    bytes of a header. *)
Definition stream_line_precedes_payload (s : list bytes) : Prop :=
  forall n st, iter n (init s) = inl st -> out st = [] ->
    len (buf st) <= HEADER_NEED.

(** * Properties of the codec *)

Module StructFacts.
Import Struct.

Lemma to_N_lt_256 (b : byte) : Byte.to_N b < 256.
Proof. pose proof (Byte.to_N_bounded b). lia. Qed.

Lemma to_N_inj (a b : byte) : Byte.to_N a = Byte.to_N b -> a = b.
Proof.
  intros E. pose proof (Byte.of_to_N a) as Ha.
  rewrite E, Byte.of_to_N in Ha. congruence.
Qed.

Lemma to_N_byte_of_N (n : N) : Byte.to_N (byte_of_N n) = n mod 256.
Proof.
  unfold byte_of_N.
  destruct (Byte.of_N (n mod 256)) as [b|] eqn:E.
  - now apply Byte.to_of_N.
  - apply Byte.of_N_None_iff in E.
    pose proof (N.mod_upper_bound n 256). lia.
Qed.

Lemma byte_of_N_to_N (b : byte) : byte_of_N (Byte.to_N b) = b.
Proof.
  apply to_N_inj. rewrite to_N_byte_of_N.
  apply N.mod_small, to_N_lt_256.
Qed.

Lemma pow256_pos (n : nat) : 0 < 256 ^ N.of_nat n.
Proof. apply N.neq_0_lt_0, N.pow_nonzero. discriminate. Qed.

Lemma pow256_succ (n : nat) : 256 ^ N.of_nat (S n) = 256 * 256 ^ N.of_nat n.
Proof. now rewrite Nnat.Nat2N.inj_succ, N.pow_succ_r'. Qed.

Lemma from_bytes_acc_eq (bs : bytes) (acc : N) :
  from_bytes_acc acc bs
  = acc * 256 ^ N.of_nat (length bs) + from_bytes_big bs.
Proof.
  unfold from_bytes_big. revert acc.
  induction bs as [|b bs IH]; intros acc.
  - cbn [from_bytes_acc length]. change (N.of_nat 0) with 0.
    rewrite N.pow_0_r. lia.
  - cbn [from_bytes_acc length]. rewrite pow256_succ.
    rewrite (IH (acc * 256 + Byte.to_N b)), (IH (0 * 256 + Byte.to_N b)).
    lia.
Qed.

Lemma from_bytes_big_cons (b : byte) (bs : bytes) :
  from_bytes_big (b :: bs)
  = Byte.to_N b * 256 ^ N.of_nat (length bs) + from_bytes_big bs.
Proof.
  unfold from_bytes_big at 1. cbn [from_bytes_acc].
  rewrite from_bytes_acc_eq. f_equal.
Qed.

Lemma from_bytes_big_lt (bs : bytes) :
  from_bytes_big bs < 256 ^ N.of_nat (length bs).
Proof.
  induction bs as [|b bs IH].
  - cbn. lia.
  - rewrite from_bytes_big_cons. cbn [length]. rewrite pow256_succ.
    pose proof (to_N_lt_256 b). nia.
Qed.

Lemma digits_unique (p x a y b : N) :
  a < p -> b < p -> x * p + a = y * p + b -> x = y /\ a = b.
Proof.
  intros Ha Hb E.
  assert (x = y) as ->.
  { destruct (N.lt_total x y) as [H|[H|H]]; [exfalso | assumption | exfalso].
    - assert ((x + 1) * p <= y * p) by (apply N.mul_le_mono_r; lia). lia.
    - assert ((y + 1) * p <= x * p) by (apply N.mul_le_mono_r; lia). lia. }
  split; [reflexivity | lia].
Qed.

Lemma from_bytes_big_inj (xs ys : bytes) :
  length xs = length ys ->
  from_bytes_big xs = from_bytes_big ys -> xs = ys.
Proof.
  revert ys. induction xs as [|x xs IH]; intros [|y ys] L E;
    try discriminate; [reflexivity|].
  injection L as L.
  rewrite !from_bytes_big_cons, <- L in E.
  pose proof (from_bytes_big_lt xs) as Hx.
  pose proof (from_bytes_big_lt ys) as Hy. rewrite <- L in Hy.
  destruct (digits_unique _ _ _ _ _ Hx Hy E) as [E1 E2].
  f_equal; [now apply to_N_inj | now apply IH].
Qed.

Lemma to_bytes_big_length (w : nat) (v : N) : length (to_bytes_big w v) = w.
Proof. induction w; cbn [to_bytes_big length]; congruence. Qed.

Lemma from_to_bytes_big (w : nat) (v : N) :
  from_bytes_big (to_bytes_big w v) = v mod 256 ^ N.of_nat w.
Proof.
  induction w as [|w IH].
  - cbn. now rewrite N.mod_1_r.
  - cbn [to_bytes_big]. rewrite from_bytes_big_cons, to_bytes_big_length.
    rewrite IH, to_N_byte_of_N, pow256_succ.
    rewrite (N.mul_comm 256), N.Div0.mod_mul_r. lia.
Qed.

Lemma to_from_bytes_big (bs : bytes) :
  to_bytes_big (length bs) (from_bytes_big bs) = bs.
Proof.
  apply from_bytes_big_inj.
  - apply to_bytes_big_length.
  - rewrite from_to_bytes_big. apply N.mod_small, from_bytes_big_lt.
Qed.

Lemma pack_length (fmt : list fmt_char) (vals : list N) :
  length (pack fmt vals) = calcsize fmt.
Proof.
  revert vals. induction fmt as [|c fmt IH]; intros vals; [reflexivity|].
  cbn [pack]. rewrite length_app, to_bytes_big_length, IH. reflexivity.
Qed.

Lemma unpack_fields_pack (fmt : list fmt_char) (vals : list N) :
  fits fmt vals -> unpack_fields fmt (pack fmt vals) = vals.
Proof.
  revert vals. induction fmt as [|c fmt IH]; intros [|v vals] F;
    cbn [fits] in F; try contradiction; [reflexivity|].
  destruct F as [Fv F]. cbn [unpack_fields pack hd tl].
  rewrite firstn_app, skipn_app, to_bytes_big_length, Nat.sub_diag.
  rewrite firstn_all2 by (rewrite to_bytes_big_length; lia).
  rewrite skipn_all2 by (rewrite to_bytes_big_length; lia).
  cbn [firstn skipn app]. rewrite app_nil_r, from_to_bytes_big.
  rewrite N.mod_small by assumption. now rewrite IH.
Qed.

Lemma unpack_pack (fmt : list fmt_char) (vals : list N) :
  fits fmt vals -> unpack fmt (pack fmt vals) = Some vals.
Proof.
  intros F. unfold unpack. rewrite pack_length, Nat.eqb_refl.
  now rewrite unpack_fields_pack.
Qed.

Lemma unpack_fields_length (fmt : list fmt_char) (data : bytes) :
  length (unpack_fields fmt data) = length fmt.
Proof.
  revert data. induction fmt; intros; cbn [unpack_fields length]; auto.
Qed.

Lemma pack_unpack_fields (fmt : list fmt_char) (data : bytes) :
  length data = calcsize fmt ->
  pack fmt (unpack_fields fmt data) = data.
Proof.
  revert data. induction fmt as [|c fmt IH]; intros data L.
  - destruct data; [reflexivity | discriminate].
  - cbn [unpack_fields pack hd tl].
    change (calcsize (c :: fmt)) with (size_of c + calcsize fmt)%nat in L.
    rewrite IH by (rewrite length_skipn; lia).
    assert (length (firstn (size_of c) data) = size_of c) as Lf
      by (rewrite length_firstn; lia).
    rewrite <- Lf at 1. rewrite to_from_bytes_big.
    apply firstn_skipn.
Qed.

Lemma unpack_fields_fits (fmt : list fmt_char) (data : bytes) :
  length data = calcsize fmt -> fits fmt (unpack_fields fmt data).
Proof.
  revert data. induction fmt as [|c fmt IH]; intros data L; [exact Logic.I|].
  change (calcsize (c :: fmt)) with (size_of c + calcsize fmt)%nat in L.
  cbn [unpack_fields fits]. split.
  - pose proof (from_bytes_big_lt (firstn (size_of c) data)) as B.
    rewrite length_firstn in B.
    replace (Nat.min (size_of c) (length data)) with (size_of c) in B by lia.
    exact B.
  - apply IH. rewrite length_skipn. lia.
Qed.

End StructFacts.

(** ** Headers on the wire *)

Lemma header_in_range_fits (h : header) :
  header_in_range h -> fits HEADER_FMT (fields_of_header h).
Proof.
  unfold header_in_range. intros (?&?&?&?&?&?&?&?).
  cbn -[N.pow N.lt]. change (256 ^ N.of_nat 4) with (2 ^ 32).
  change (256 ^ N.of_nat 8) with (2 ^ 64). tauto.
Qed.

Lemma fits_header_in_range (h : header) :
  fits HEADER_FMT (fields_of_header h) -> header_in_range h.
Proof.
  unfold header_in_range. cbn -[N.pow N.lt].
  change (256 ^ N.of_nat 4) with (2 ^ 32).
  change (256 ^ N.of_nat 8) with (2 ^ 64). tauto.
Qed.

Lemma header_fields_roundtrip (vals : list N) (h : header) :
  header_of_fields vals = Some h -> fields_of_header h = vals.
Proof.
  do 9 (destruct vals as [|? vals]; try discriminate).
  cbn. intros [= <-]. reflexivity.
Qed.

Lemma pack_header_length (h : header) : length (pack_header h) = 36%nat.
Proof. unfold pack_header. now rewrite StructFacts.pack_length. Qed.

Lemma unpack_pack_header (h : header) :
  header_in_range h -> unpack_header (pack_header h) = Some h.
Proof.
  intros R. unfold unpack_header, pack_header.
  rewrite StructFacts.unpack_pack by now apply header_in_range_fits.
  now destruct h.
Qed.

Lemma unpack_header_total (data : bytes) :
  length data = 36%nat -> exists h, unpack_header data = Some h.
Proof.
  intros L. unfold unpack_header, Struct.unpack. rewrite L. cbn [Nat.eqb].
  change (Struct.calcsize HEADER_FMT) with 36%nat. cbn [Nat.eqb].
  cbn [HEADER_FMT Struct.unpack_fields header_of_fields]. eauto.
Qed.

Lemma unpack_header_length (data : bytes) (h : header) :
  unpack_header data = Some h -> length data = 36%nat.
Proof.
  unfold unpack_header, Struct.unpack.
  destruct (Nat.eqb_spec (length data) (Struct.calcsize HEADER_FMT)) as [E|];
    [intros _; exact E | discriminate].
Qed.

Lemma pack_unpack_header (data : bytes) (h : header) :
  unpack_header data = Some h ->
  pack_header h = data /\ header_in_range h.
Proof.
  intros U. pose proof (unpack_header_length _ _ U) as L.
  unfold unpack_header, Struct.unpack in U.
  change (Struct.calcsize HEADER_FMT) with 36%nat in U.
  rewrite L in U. cbn [Nat.eqb] in U.
  apply header_fields_roundtrip in U. unfold pack_header. rewrite U. split.
  - now apply StructFacts.pack_unpack_fields.
  - apply fits_header_in_range. rewrite U.
    now apply StructFacts.unpack_fields_fits.
Qed.

(** * Runs of the loop *)

Section Runs.

Lemma reaches_refl (st : state) : reaches st st.
Proof. now exists 0%nat. Qed.

Lemma reaches_step (st st1 st2 : state) :
  step st = inl st1 -> reaches st1 st2 -> reaches st st2.
Proof. intros S1 [n R]. exists (S n). cbn [iter]. now rewrite S1. Qed.

Lemma reaches_trans (st1 st2 st3 : state) :
  reaches st1 st2 -> reaches st2 st3 -> reaches st1 st3.
Proof.
  intros [n R]. revert st1 R.
  induction n as [|n IH]; intros st1 R R'; cbn [iter] in R.
  - now injection R as ->.
  - destruct (step st1) as [st|r] eqn:S1; [|discriminate].
    eapply reaches_step; eauto.
Qed.

Lemma reaches_halts (st st' : state) (r : result) :
  reaches st st' -> halts st' r -> halts st r.
Proof.
  intros [n R] [fuel H]. exists (n + fuel)%nat. revert st R.
  induction n as [|n IH]; intros st R; cbn [iter] in R.
  - now injection R as ->.
  - destruct (step st) as [st1|r1] eqn:S1; [|discriminate].
    cbn [Nat.add run]. rewrite S1. now apply IH.
Qed.

Lemma reaches_diverges (st st' : state) :
  reaches st st' -> diverges st' -> diverges st.
Proof.
  intros [n R] D. revert st R.
  induction n as [|n IH]; intros st R; cbn [iter] in R.
  - now injection R as ->.
  - destruct (step st) as [st1|r1] eqn:S1; [|discriminate].
    intros [|fuel]; [reflexivity|]. cbn [run]. rewrite S1.
    now apply IH.
Qed.

Lemma halts_step_result (st : state) (r : result) :
  step st = inr r -> halts st r.
Proof. intros S1. exists 1%nat. cbn [run]. now rewrite S1. Qed.

Lemma run_more (fuel k : nat) (st : state) (r : result) :
  run fuel st = Some r -> run (fuel + k) st = Some r.
Proof.
  revert st. induction fuel as [|fuel IH]; intros st; [discriminate|].
  cbn [Nat.add run]. destruct (step st); [apply IH | trivial].
Qed.

Lemma halts_unique (st : state) (r1 r2 : result) :
  halts st r1 -> halts st r2 -> r1 = r2.
Proof.
  intros [f1 H1] [f2 H2].
  apply (run_more _ f2) in H1. apply (run_more _ f1) in H2.
  rewrite Nat.add_comm in H2. congruence.
Qed.

Lemma diverges_not_halts (st : state) (r : result) :
  diverges st -> ~ halts st r.
Proof. intros D [fuel H]. rewrite D in H. discriminate. Qed.

Lemma step_fixed_diverges (st : state) : step st = inl st -> diverges st.
Proof.
  intros S1 fuel. induction fuel as [|fuel IH]; [reflexivity|].
  cbn [run]. now rewrite S1.
Qed.

End Runs.

(** ** One step, case by case *)

Section Steps.

Variables (b : bytes) (n : N) (oh : option header) (c : N)
          (s : list bytes) (o : list event).

Lemma len_app (x y : bytes) : len (x ++ y) = len x + len y.
Proof. unfold len. rewrite length_app. lia. Qed.

Lemma len_nil_iff (x : bytes) : len x = 0 <-> x = [].
Proof. unfold len. destruct x; cbn [length]; split; try easy; lia. Qed.

(** Line 38 with data on the socket. *)
Lemma step_head_recv (chunk : bytes) :
  len b < n -> chunk <> [] ->
  step (mkState b n oh c (chunk :: s) o LoopHead)
  = inl (mkState (b ++ chunk) n oh c s o LoopHead).
Proof.
  intros L NE. unfold step. cbn [pc buf need sock recv].
  apply N.ltb_lt in L. rewrite L.
  destruct (b ++ chunk) eqn:E; [|reflexivity].
  apply app_eq_nil in E. tauto.
Qed.

(** Lines 38-41 once the peer has closed. *)
Lemma step_head_closed :
  len b < n ->
  step (mkState b n oh c [] o LoopHead)
  = match b with
    | [] => inr (mkResult Finished (o ++ [StderrDone c]))
    | _ :: _ => inl (mkState b n oh c [] o LoopHead)
    end.
Proof.
  intros L. unfold step. cbn [pc buf need sock recv].
  apply N.ltb_lt in L. rewrite L, app_nil_r. now destruct b.
Qed.

(** Lines 42-51. *)
Lemma step_head_unpack (h : header) :
  n <= len b -> unpack_header (slice_to b n) = Some h ->
  step (mkState b n oh c s o LoopHead)
  = if magic h =? MAGIC
    then inl (mkState (slice_from b n) (payload_len h) (Some h) c s
                (o ++ header_events c h) PayloadLoop)
    else inr (mkResult Exit3 (o ++ [StderrBadMagic (magic h)])).
Proof.
  intros L U. unfold step. cbn [pc buf need sock frame_count out].
  apply N.ltb_ge in L. rewrite L, U.
  destruct (magic h =? MAGIC); cbn [negb]; [|reflexivity].
  unfold header_events, stream_line.
  destruct (c =? 0); [reflexivity | now rewrite app_nil_r].
Qed.

(** Line 53 with data on the socket. *)
Lemma step_payload_recv (h : header) (chunk : bytes) :
  len b < payload_len h -> chunk <> [] ->
  step (mkState b n (Some h) c (chunk :: s) o PayloadLoop)
  = inl (mkState (b ++ chunk) n (Some h) c s o PayloadLoop).
Proof.
  intros L NE. unfold step. cbn [pc buf need sock recv hdr].
  apply N.ltb_lt in L. rewrite L.
  destruct (b ++ chunk) eqn:E; [|reflexivity].
  apply app_eq_nil in E. tauto.
Qed.

(** Lines 53-57 once the peer has closed. *)
Lemma step_payload_closed (h : header) :
  len b < payload_len h ->
  step (mkState b n (Some h) c [] o PayloadLoop)
  = match b with
    | [] => inr (mkResult Finished (o ++ [StderrDone c]))
    | _ :: _ => inl (mkState b n (Some h) c [] o PayloadLoop)
    end.
Proof.
  intros L. unfold step. cbn [pc buf need sock recv hdr].
  pose proof L as L'. apply N.ltb_lt in L'. rewrite L', app_nil_r.
  destruct b; [|reflexivity].
  unfold after_payload_loop. cbn [buf]. now rewrite L'.
Qed.

(** Lines 56-64. *)
Lemma step_payload_emit (h : header) :
  payload_len h <= len b ->
  step (mkState b n (Some h) c s o PayloadLoop)
  = inl (mkState (slice_from b (payload_len h)) HEADER_NEED (Some h)
           (c + 1) s
           (o ++ payload_events c (h, slice_to b (payload_len h)))
           LoopHead).
Proof.
  intros L. unfold step, after_payload_loop.
  cbn [pc buf need sock hdr frame_count out].
  apply N.ltb_ge in L. rewrite L.
  unfold payload_events. cbn [fst snd].
  destruct ((c + 1) mod 100 =? 0).
  - now rewrite <- app_assoc.
  - reflexivity.
Qed.

End Steps.

(** ** Waiting for bytes *)

Section Buffering.

Lemma chunks_ok_concat_nil (s : list bytes) :
  chunks_ok s -> concat s = [] -> s = [].
Proof.
  intros [|c s' NE _]; [reflexivity|]. cbn [concat]. intros E.
  apply app_eq_nil in E. tauto.
Qed.

Lemma to_nat_len (x : bytes) : N.to_nat (len x) = length x.
Proof. unfold len. apply Nnat.Nat2N.id. Qed.

(** A buffer that already holds a known prefix of the stream. *)
Lemma prefix_split (x y u v : bytes) :
  x ++ y = u ++ v -> len u <= len x ->
  slice_to x (len u) = u /\ slice_from x (len u) ++ y = v.
Proof.
  unfold slice_to, slice_from. rewrite to_nat_len. unfold len.
  intros E L. assert (length u <= length x)%nat as L' by lia. split.
  - assert (firstn (length u) (x ++ y) = firstn (length u) (u ++ v)) as F
      by now rewrite E.
    rewrite !firstn_app, Nat.sub_diag in F.
    replace (length u - length x)%nat with 0%nat in F by lia.
    cbn [firstn] in F. rewrite !app_nil_r, (firstn_all u) in F. exact F.
  - assert (skipn (length u) (x ++ y) = skipn (length u) (u ++ v)) as F
      by now rewrite E.
    rewrite !skipn_app, Nat.sub_diag, skipn_all in F.
    replace (length u - length x)%nat with 0%nat in F by lia.
    exact F.
Qed.

Variables (n : N) (oh : option header) (c : N) (o : list event).

(** The head of the loop receives until [need] bytes are buffered. *)
Lemma fill_head (s : list bytes) (b : bytes) :
  chunks_ok s -> n <= len (b ++ concat s) ->
  exists b' s',
    reaches (mkState b n oh c s o LoopHead)
            (mkState b' n oh c s' o LoopHead) /\
    n <= len b' /\ b' ++ concat s' = b ++ concat s /\ chunks_ok s'.
Proof.
  intros OK. revert b. induction OK as [|chunk s NE OK IH]; intros b L.
  - exists b, []. cbn [concat] in *. rewrite app_nil_r in L.
    repeat split; auto using reaches_refl. constructor.
  - destruct (N.le_gt_cases n (len b)) as [G|G].
    + exists b, (chunk :: s).
      repeat split; auto using reaches_refl. now constructor.
    + cbn [concat] in L. rewrite app_assoc in L.
      destruct (IH _ L) as (b' & s' & R & L' & E & OK').
      exists b', s'. repeat split; auto.
      * eapply reaches_step; [now apply step_head_recv | exact R].
      * rewrite E. cbn [concat]. now rewrite app_assoc.
Qed.

(** The inner loop receives until the payload is buffered. *)
Lemma fill_payload (h : header) (s : list bytes) (b : bytes) :
  chunks_ok s -> payload_len h <= len (b ++ concat s) ->
  exists b' s',
    reaches (mkState b n (Some h) c s o PayloadLoop)
            (mkState b' n (Some h) c s' o PayloadLoop) /\
    payload_len h <= len b' /\ b' ++ concat s' = b ++ concat s /\
    chunks_ok s'.
Proof.
  intros OK. revert b. induction OK as [|chunk s NE OK IH]; intros b L.
  - exists b, []. cbn [concat] in *. rewrite app_nil_r in L.
    repeat split; auto using reaches_refl. constructor.
  - destruct (N.le_gt_cases (payload_len h) (len b)) as [G|G].
    + exists b, (chunk :: s).
      repeat split; auto using reaches_refl. now constructor.
    + cbn [concat] in L. rewrite app_assoc in L.
      destruct (IH _ L) as (b' & s' & R & L' & E & OK').
      exists b', s'. repeat split; auto.
      * eapply reaches_step; [now apply step_payload_recv | exact R].
      * rewrite E. cbn [concat]. now rewrite app_assoc.
Qed.

(** When the stream is too short, every chunk is taken in. *)
Lemma drain_head (s : list bytes) (b : bytes) :
  chunks_ok s -> len (b ++ concat s) < n ->
  reaches (mkState b n oh c s o LoopHead)
          (mkState (b ++ concat s) n oh c [] o LoopHead).
Proof.
  intros OK. revert b. induction OK as [|chunk s NE OK IH]; intros b L.
  - cbn [concat]. rewrite app_nil_r. apply reaches_refl.
  - cbn [concat] in *. rewrite app_assoc in *.
    eapply reaches_step; [|now apply IH].
    apply step_head_recv; [|assumption].
    rewrite !len_app in L. lia.
Qed.

Lemma drain_payload (h : header) (s : list bytes) (b : bytes) :
  chunks_ok s -> len (b ++ concat s) < payload_len h ->
  reaches (mkState b n (Some h) c s o PayloadLoop)
          (mkState (b ++ concat s) n (Some h) c [] o PayloadLoop).
Proof.
  intros OK. revert b. induction OK as [|chunk s NE OK IH]; intros b L.
  - cbn [concat]. rewrite app_nil_r. apply reaches_refl.
  - cbn [concat] in *. rewrite app_assoc in *.
    eapply reaches_step; [|now apply IH].
    apply step_payload_recv; [|assumption].
    rewrite !len_app in L. lia.
Qed.

(** With the peer gone and a short, non-empty buffer the loop spins:
    [buf += b""] changes nothing and [if not buf] does not fire. *)
Lemma spin_head (b : bytes) :
  b <> [] -> len b < n -> diverges (mkState b n oh c [] o LoopHead).
Proof.
  intros NE L. apply step_fixed_diverges.
  rewrite step_head_closed by assumption. now destruct b.
Qed.

Lemma spin_payload (h : header) (b : bytes) :
  b <> [] -> len b < payload_len h ->
  diverges (mkState b n (Some h) c [] o PayloadLoop).
Proof.
  intros NE L. apply step_fixed_diverges.
  rewrite step_payload_closed by assumption. now destruct b.
Qed.

End Buffering.

(** ** Whole frames *)

Section Frames.

Lemma header_need_eq : HEADER_NEED = 36.
Proof. reflexivity. Qed.

Lemma len_pack_header (h : header) : len (pack_header h) = HEADER_NEED.
Proof. unfold len. now rewrite pack_header_length. Qed.

(** From the head of the loop, a header that is on the wire in full is
    read as soon as 36 bytes are buffered. *)
Lemma read_header (h : header) (rest : bytes) (oh : option header)
      (c : N) (o : list event) (s : list bytes) (b : bytes) :
  chunks_ok s -> header_in_range h ->
  b ++ concat s = pack_header h ++ rest ->
  exists b1 s1,
    reaches (mkState b HEADER_NEED oh c s o LoopHead)
            (mkState b1 HEADER_NEED oh c s1 o LoopHead) /\
    step (mkState b1 HEADER_NEED oh c s1 o LoopHead)
    = (if magic h =? MAGIC
       then inl (mkState (slice_from b1 HEADER_NEED) (payload_len h)
                   (Some h) c s1 (o ++ header_events c h) PayloadLoop)
       else inr (mkResult Exit3 (o ++ [StderrBadMagic (magic h)]))) /\
    slice_from b1 HEADER_NEED ++ concat s1 = rest /\ chunks_ok s1.
Proof.
  intros OK R E.
  destruct (fill_head HEADER_NEED oh c o s b OK) as (b1 & s1 & R1 & L1 & E1 & OK1).
  { rewrite E, len_app, len_pack_header. lia. }
  rewrite E in E1. rewrite <- (len_pack_header h) in L1.
  destruct (prefix_split _ _ _ _ E1 L1) as [P1 P2].
  rewrite len_pack_header in P1, P2, L1.
  exists b1, s1. repeat split; auto.
  apply step_head_unpack; [assumption|].
  rewrite P1. now apply unpack_pack_header.
Qed.

(** One valid frame on the wire, however it is cut into chunks, takes
    the loop from its head back to its head. *)
Lemma one_frame (f : frame) (rest : bytes) (oh : option header)
      (c : N) (o : list event) (s : list bytes) (b : bytes) :
  chunks_ok s -> valid_frame f ->
  b ++ concat s = encode_frame f ++ rest ->
  exists b' s',
    reaches (mkState b HEADER_NEED oh c s o LoopHead)
            (mkState b' HEADER_NEED (Some (fst f)) (c + 1) s'
               (o ++ frame_events c f) LoopHead) /\
    b' ++ concat s' = rest /\ chunks_ok s'.
Proof.
  destruct f as [h p]. unfold valid_frame, encode_frame. cbn [fst snd].
  intros OK (R & M & PL) E. rewrite <- app_assoc in E.
  destruct (read_header h _ oh c o s b OK R E)
    as (b1 & s1 & R1 & S1 & E1 & OK1).
  apply N.eqb_eq in M. rewrite M in S1.
  destruct (fill_payload (payload_len h) c (o ++ header_events c h) h s1
              (slice_from b1 HEADER_NEED) OK1)
    as (b2 & s2 & R2 & L2 & E2 & OK2).
  { rewrite E1, PL, len_app. lia. }
  rewrite E1 in E2. rewrite PL in L2.
  destruct (prefix_split _ _ _ _ E2 L2) as [P1 P2].
  exists (slice_from b2 (len p)), s2. repeat split; auto.
  eapply reaches_trans; [exact R1|].
  eapply reaches_step; [exact S1|].
  eapply reaches_trans; [exact R2|].
  eapply reaches_step; [|apply reaches_refl].
  rewrite step_payload_emit by (rewrite PL; exact L2).
  rewrite PL, P1. unfold frame_events. cbn [fst snd].
  now rewrite app_assoc.
Qed.

(** Any number of valid frames. *)
Lemma all_frames (fs : list frame) (rest : bytes) (oh : option header)
      (c : N) (o : list event) (s : list bytes) (b : bytes) :
  chunks_ok s -> Forall valid_frame fs ->
  b ++ concat s = encode_stream fs ++ rest ->
  exists b' s' oh',
    reaches (mkState b HEADER_NEED oh c s o LoopHead)
            (mkState b' HEADER_NEED oh' (c + N.of_nat (length fs)) s'
               (o ++ stream_events c fs) LoopHead) /\
    b' ++ concat s' = rest /\ chunks_ok s'.
Proof.
  intros OK V. revert oh c o s b OK.
  induction V as [|f fs Vf V IH]; intros oh c o s b OK E.
  - exists b, s, oh. cbn [length stream_events encode_stream map concat] in *.
    rewrite N.add_0_r, app_nil_r. auto using reaches_refl.
  - unfold encode_stream in E. cbn [map concat] in E.
    rewrite <- app_assoc in E.
    destruct (one_frame f _ oh c o s b OK Vf E) as (b1 & s1 & R1 & E1 & OK1).
    destruct (IH (Some (fst f)) (c + 1) (o ++ frame_events c f) s1 b1 OK1 E1)
      as (b2 & s2 & oh2 & R2 & E2 & OK2).
    exists b2, s2, oh2. repeat split; auto.
    eapply reaches_trans; [exact R1|].
    cbn [length stream_events]. rewrite app_assoc.
    replace (c + N.of_nat (S (length fs)))
      with (c + 1 + N.of_nat (length fs)) by lia.
    exact R2.
Qed.

Lemma emitted_app (t u : list event) :
  emitted (t ++ u) = emitted t ++ emitted u.
Proof.
  induction t as [|e t IH]; [reflexivity|].
  destruct e; cbn [app emitted]; now rewrite ?IH.
Qed.

Lemma emitted_header_events (c : N) (h : header) :
  emitted (header_events c h) = [].
Proof. unfold header_events. now destruct (c =? 0). Qed.

Lemma emitted_frame_events (c : N) (f : frame) :
  emitted (frame_events c f) = [f].
Proof.
  unfold frame_events, payload_events.
  rewrite emitted_app, emitted_header_events. destruct f as [h p].
  cbn [app emitted fst snd]. now destruct ((c + 1) mod 100 =? 0).
Qed.

Lemma emitted_stream_events (fs : list frame) (c : N) :
  emitted (stream_events c fs) = fs.
Proof.
  revert c. induction fs as [|f fs IH]; intros c; [reflexivity|].
  cbn [stream_events]. now rewrite emitted_app, emitted_frame_events, IH.
Qed.

End Frames.

(** ** How a stream can end *)

Section Endings.

Variables (fs : list frame) (s : list bytes).
Hypothesis (OK : chunks_ok s) (V : Forall valid_frame fs).

(** The peer closes on a frame boundary. *)
Lemma ends_on_boundary :
  concat s = encode_stream fs ->
  halts (init s)
    (mkResult Finished
       (stream_events 0 fs ++ [StderrDone (N.of_nat (length fs))])).
Proof.
  intros E.
  destruct (all_frames fs [] None 0 [] s [] OK V)
    as (b & s' & oh & R & E' & OK').
  { cbn [app]. now rewrite app_nil_r. }
  apply app_eq_nil in E' as [-> E'].
  apply chunks_ok_concat_nil in E'; [subst s' | assumption].
  eapply reaches_halts; [exact R|]. apply halts_step_result.
  rewrite step_head_closed by (cbn; lia). reflexivity.
Qed.

(** The peer closes inside a header. *)
Lemma ends_in_header (part : bytes) :
  part <> [] -> len part < HEADER_NEED ->
  concat s = encode_stream fs ++ part ->
  diverges (init s).
Proof.
  intros NE L E.
  destruct (all_frames fs part None 0 [] s [] OK V E)
    as (b & s' & oh & R & E' & OK').
  eapply reaches_diverges; [exact R|].
  eapply reaches_diverges.
  - apply drain_head; [assumption | now rewrite E'].
  - rewrite E'. now apply spin_head.
Qed.

(** A header with a wrong marker, whatever follows it. *)
Lemma ends_with_bad_magic (h : header) (rest : bytes) :
  header_in_range h -> magic h <> MAGIC ->
  concat s = encode_stream fs ++ pack_header h ++ rest ->
  halts (init s)
    (mkResult Exit3 (stream_events 0 fs ++ [StderrBadMagic (magic h)])).
Proof.
  intros R M E.
  destruct (all_frames fs _ None 0 [] s [] OK V E)
    as (b & s' & oh & R1 & E' & OK').
  destruct (read_header h rest oh (N.of_nat (length fs))
              (stream_events 0 fs) s' b OK' R E')
    as (b1 & s1 & R2 & S1 & _).
  apply N.eqb_neq in M. rewrite M in S1.
  eapply reaches_halts; [exact R1|].
  eapply reaches_halts; [exact R2|].
  now apply halts_step_result.
Qed.

(** A valid header, then the peer closes before the payload is complete:
    the loop is left in the inner loop with the whole remainder buffered. *)
Lemma ends_in_payload (h : header) (part : bytes) :
  header_in_range h -> magic h = MAGIC -> len part < payload_len h ->
  concat s = encode_stream fs ++ pack_header h ++ part ->
  reaches (init s)
    (mkState part (payload_len h) (Some h) (N.of_nat (length fs)) []
       (stream_events 0 fs ++ header_events (N.of_nat (length fs)) h) PayloadLoop).
Proof.
  intros R M L E.
  destruct (all_frames fs _ None 0 [] s [] OK V E)
    as (b & s' & oh & R1 & E' & OK').
  destruct (read_header h part oh (N.of_nat (length fs))
              (stream_events 0 fs) s' b OK' R E')
    as (b1 & s1 & R2 & S1 & E1 & OK1).
  apply N.eqb_eq in M. rewrite M in S1.
  eapply reaches_trans; [exact R1|].
  eapply reaches_trans; [exact R2|].
  eapply reaches_step; [exact S1|].
  rewrite <- E1. apply drain_payload; [assumption | now rewrite E1].
Qed.

Lemma ends_after_header (h : header) :
  header_in_range h -> magic h = MAGIC -> 0 < payload_len h ->
  concat s = encode_stream fs ++ pack_header h ->
  halts (init s)
    (mkResult Finished
       (stream_events 0 fs ++ header_events (N.of_nat (length fs)) h
          ++ [StderrDone (N.of_nat (length fs))])).
Proof.
  intros R M L E. rewrite <- (app_nil_r (pack_header h)) in E.
  eapply reaches_halts; [now apply (ends_in_payload h [])|].
  apply halts_step_result.
  rewrite step_payload_closed by exact L. now rewrite <- app_assoc.
Qed.

Lemma ends_in_partial_payload (h : header) (part : bytes) :
  header_in_range h -> magic h = MAGIC ->
  part <> [] -> len part < payload_len h ->
  concat s = encode_stream fs ++ pack_header h ++ part ->
  diverges (init s).
Proof.
  intros R M NE L E.
  eapply reaches_diverges; [now apply (ends_in_payload h part)|].
  now apply spin_payload.
Qed.

End Endings.

(** ** Every byte is accounted for *)

Section Accounting.

Lemma encode_stream_app (fs gs : list frame) :
  encode_stream (fs ++ gs) = encode_stream fs ++ encode_stream gs.
Proof. unfold encode_stream. now rewrite map_app, concat_app. Qed.

Lemma encode_stream_one (f : frame) : encode_stream [f] = encode_frame f.
Proof. unfold encode_stream. cbn [map concat]. apply app_nil_r. Qed.

Lemma recv_concat (s : list bytes) :
  fst (recv s) ++ concat (snd (recv s)) = concat s.
Proof. now destruct s. Qed.

Lemma slice_split (b : bytes) (n : N) : slice_to b n ++ slice_from b n = b.
Proof. apply firstn_skipn. Qed.

Lemma len_slice_to (b : bytes) (n : N) : n <= len b -> len (slice_to b n) = n.
Proof.
  unfold len, slice_to. intros L. rewrite length_firstn. lia.
Qed.

Lemma emitted_snoc_other (t : list event) (e : event) :
  (forall h p, e <> StdoutFrame h p) -> emitted (t ++ [e]) = emitted t.
Proof.
  intros NF. rewrite emitted_app.
  destruct e as [| h p | | |]; cbn [emitted]; try apply app_nil_r.
  now destruct (NF h p).
Qed.

Lemma accounted_init (s : list bytes) : accounted (concat s) (init s).
Proof. split; [constructor | now split]. Qed.

Lemma accounted_finish (total : bytes) (st : state) :
  accounted total st -> accounted_result total (finish st).
Proof.
  intros [V A]. unfold accounted_result, finish. cbn [trace].
  rewrite emitted_snoc_other by discriminate. split; [exact V|].
  destruct (pc st); [destruct A as [_ A] | destruct A as (h & _ & _ & _ & A)];
    eauto.
Qed.

Lemma accounted_after_payload (total : bytes) (b : bytes) (n : N)
      (h : header) (c : N) (s : list bytes) (o : list event) :
  accounted total (mkState b n (Some h) c s o PayloadLoop) ->
  match after_payload_loop (mkState b n (Some h) c s o PayloadLoop) h with
  | inl st' => accounted total st'
  | inr r => accounted_result total r
  end.
Proof.
  intros A. unfold after_payload_loop. cbn [buf out frame_count hdr sock].
  destruct (N.ltb_spec (len b) (payload_len h)) as [L|L].
  - now apply accounted_finish in A.
  - destruct A as [V (h' & [= <-] & R & M & E)]. cbn [out buf sock] in *.
    assert (emitted
              (if (c + 1) mod 100 =? 0
               then (o ++ [StdoutFrame h (slice_to b (payload_len h))])
                      ++ [StderrFrames (c + 1)]
               else o ++ [StdoutFrame h (slice_to b (payload_len h))])
            = emitted o ++ [(h, slice_to b (payload_len h))]) as EM.
    { destruct ((c + 1) mod 100 =? 0);
        rewrite ?emitted_snoc_other by discriminate;
        now rewrite emitted_app. }
    split; cbn [out pc need buf sock]; rewrite EM.
    + apply Forall_app. split; [exact V|]. constructor; [|constructor].
      unfold valid_frame. cbn [fst snd].
      split; [exact R | split; [exact M | now rewrite len_slice_to]].
    + split; [reflexivity|].
      rewrite encode_stream_app, encode_stream_one. unfold encode_frame.
      cbn [fst snd]. rewrite <- E, <- !app_assoc. do 2 f_equal.
      now rewrite app_assoc, slice_split.
Qed.

Lemma accounted_step (total : bytes) (st : state) :
  accounted total st ->
  match step st with
  | inl st' => accounted total st'
  | inr r => accounted_result total r
  end.
Proof.
  destruct st as [b n oh c s o p]. intros A. unfold step.
  cbn [pc buf need sock hdr out frame_count]. destruct p.
  - (* head of the loop *)
    destruct (len b <? n) eqn:L.
    + pose proof (recv_concat s) as RC.
      destruct (recv s) as [chunk s']. cbn [fst snd] in RC.
      destruct (b ++ chunk) eqn:EB.
      * now apply accounted_finish in A.
      * rewrite <- EB. destruct A as [V [HN E]]. cbn [out buf sock need] in *.
        split; [exact V|]. split; [exact HN|]. cbn [out buf sock].
        rewrite <- E, <- RC. now rewrite <- app_assoc.
    + destruct (unpack_header (slice_to b n)) as [h|] eqn:U.
      * destruct (magic h =? MAGIC) eqn:M; cbn [negb].
        -- destruct A as [V [HN E]]. cbn [out buf sock need] in *.
           apply pack_unpack_header in U as [P R].
           assert (emitted
                     (if c =? 0
                      then o ++ [StderrStream (width h) (height h)
                                   (stride_y h) (stride_u h) (stride_v h)]
                      else o) = emitted o) as EM.
           { destruct (c =? 0); [|reflexivity].
             now rewrite emitted_snoc_other by discriminate. }
           split; cbn [out pc hdr buf sock]; rewrite EM; [exact V|].
           exists h. split; [reflexivity|]. split; [exact R|].
           split; [now apply N.eqb_eq|].
           rewrite <- E, P. f_equal.
           now rewrite app_assoc, slice_split.
        -- destruct A as [V [HN E]]. cbn [out buf sock need] in *.
           split; cbn [trace];
             rewrite emitted_snoc_other by discriminate; eauto.
      * destruct A as [V [HN E]]. split; cbn [trace]; eauto.
  - (* inner loop *)
    destruct A as [V (h & [= ->] & R & M & E)]. cbn [out buf sock] in *.
    assert (accounted total (mkState b n (Some h) c s o PayloadLoop)) as A
      by (split; [exact V | exists h; auto]).
    destruct (len b <? payload_len h) eqn:L.
    + pose proof (recv_concat s) as RC.
      destruct (recv s) as [chunk s']. cbn [fst snd] in RC.
      destruct (b ++ chunk) eqn:EB.
      * apply app_eq_nil in EB as [-> ->].
        apply accounted_after_payload.
        split; [exact V | exists h]. cbn [out buf sock hdr].
        do 3 (split; [easy|]). now rewrite <- E, <- RC.
      * rewrite <- EB. split; [exact V | exists h]. cbn [out buf sock hdr].
        do 3 (split; [easy|]). rewrite <- E, <- RC.
        now rewrite <- !app_assoc.
    + now apply accounted_after_payload.
Qed.

Lemma accounted_iter (s : list bytes) (n : nat) :
  match iter n (init s) with
  | inl st => accounted (concat s) st
  | inr r => accounted_result (concat s) r
  end.
Proof.
  pose proof (accounted_init s) as A. revert A.
  generalize (init s) as st. generalize (concat s) as total.
  intros total st. revert st.
  induction n as [|n IH]; intros st A; [exact A|].
  cbn [iter]. pose proof (accounted_step total st A) as S1.
  destruct (step st) as [st'|r]; [now apply IH | exact S1].
Qed.

Lemma accounted_run (s : list bytes) (fuel : nat) (r : result) :
  run fuel (init s) = Some r -> accounted_result (concat s) r.
Proof.
  pose proof (accounted_init s) as A. revert A.
  generalize (init s) as st. generalize (concat s) as total.
  intros total st. revert st.
  induction fuel as [|fuel IH]; intros st A; [discriminate|].
  cbn [run]. pose proof (accounted_step total st A) as S1.
  destruct (step st) as [st'|r']; [now apply IH | now intros [= <-]].
Qed.

End Accounting.
(** * The header layout *)

Lemma from_bytes_big_be_field (data : bytes) (off w : nat) :
  (off + w <= length data)%nat ->
  Struct.from_bytes_big (firstn w (skipn off data)) = be_field data off w.
Proof.
  unfold be_field. revert off. induction w as [|w IH]; intros off L.
  - reflexivity.
  - destruct (skipn off data) as [|x xs] eqn:E.
    { apply (f_equal (@length _)) in E. rewrite length_skipn in E.
      cbn [length] in E. lia. }
    cbn [firstn seq map fold_right].
    rewrite StructFacts.from_bytes_big_cons.
    assert (nth (off + 0) data x00 = x) as ->.
    { rewrite Nat.add_0_r, <- (firstn_skipn off data), E.
      rewrite app_nth2; rewrite length_firstn; [|lia].
      rewrite Nat.min_l by lia. now rewrite Nat.sub_diag. }
    assert (xs = skipn (S off) data) as ->.
    { change (S off) with (1 + off)%nat.
      now rewrite <- skipn_skipn, E. }
    rewrite length_firstn, length_skipn.
    rewrite Nat.min_l by lia.
    replace (S w - 1 - 0)%nat with w by lia. f_equal.
    rewrite IH by lia. rewrite <- seq_shift, map_map.
    f_equal. apply map_ext. intros i.
    replace (off + S i)%nat with (S off + i)%nat by lia.
    now replace (S w - 1 - S i)%nat with (w - 1 - i)%nat by lia.
Qed.

Lemma be_field_firstn (data : bytes) (n off w : nat) :
  (off + w <= n)%nat -> be_field (firstn n data) off w = be_field data off w.
Proof.
  intros L. unfold be_field. f_equal. apply map_ext_in. intros i Hi.
  apply in_seq in Hi. rewrite nth_firstn.
  destruct (Nat.ltb_spec (off + i) n); [reflexivity | lia].
Qed.

Lemma unpack_fields_at (fmt : list Struct.fmt_char) (data : bytes) (off : nat) :
  (off + Struct.calcsize fmt <= length data)%nat ->
  Struct.unpack_fields fmt (skipn off data) = fields_at fmt data off.
Proof.
  revert off. induction fmt as [|c fmt IH]; intros off L; [reflexivity|].
  change (Struct.calcsize (c :: fmt))
    with (Struct.size_of c + Struct.calcsize fmt)%nat in L.
  cbn [Struct.unpack_fields fields_at].
  rewrite from_bytes_big_be_field by lia. f_equal.
  rewrite skipn_skipn, (Nat.add_comm (Struct.size_of c)). apply IH. lia.
Qed.

Lemma unpack_header_at (data : bytes) :
  length data = 36%nat -> unpack_header data = Some (header_at data).
Proof.
  intros L. unfold unpack_header, Struct.unpack.
  change (Struct.calcsize HEADER_FMT) with 36%nat. rewrite L. cbn [Nat.eqb].
  change data with (skipn 0 data) at 1.
  rewrite unpack_fields_at by (rewrite L; apply Nat.le_refl).
  reflexivity.
Qed.

Lemma header_at_firstn (b : bytes) :
  header_at (firstn 36 b) = header_at b.
Proof.
  unfold header_at. now rewrite !be_field_firstn by (cbn; lia).
Qed.

Lemma sample_frames_valid : Forall valid_frame sample_frames.
Proof. repeat constructor. Qed.

Lemma sample_header_in_range : header_in_range sample_header.
Proof. repeat split. Qed.

Lemma sample_bad_header_in_range : header_in_range sample_bad_header.
Proof. repeat split. Qed.

Lemma one_by_one_ok (data : bytes) : chunks_ok (one_by_one data).
Proof. induction data; constructor; [discriminate | assumption]. Qed.

Lemma one_by_one_concat (data : bytes) : concat (one_by_one data) = data.
Proof.
  unfold one_by_one. induction data as [|x data IH]; cbn [map concat app];
    congruence.
Qed.

Lemma stdout_bytes_emitted (t : list event) :
  stdout_bytes t = concat (map snd (emitted t)).
Proof.
  induction t as [|e t IH]; [reflexivity|].
  destruct e; cbn [stdout_bytes emitted map concat snd]; congruence.
Qed.

Lemma encode_stream_cons_not_nil (f : frame) (fs : list frame) :
  encode_stream (f :: fs) <> [].
Proof.
  intros E. apply (f_equal (@length _)) in E.
  unfold encode_stream, encode_frame in E. cbn [map concat] in E.
  rewrite !length_app, pack_header_length in E. discriminate.
Qed.

(** * The properties of the design document *)

(** C1. Chunking invariance: for every sequence of valid frames and every
    way of cutting its wire image into non-empty chunks, the run ends with
    exactly the result of the run that receives all the bytes in a single
    chunk; the (header, payload) pairs written are the frames, in order,
    and stdout holds the payloads back to back, no byte lost or repeated. *)
Theorem chunking_invariance (fs : list frame) (s : list bytes) :
  Forall valid_frame fs -> chunks_ok s -> concat s = encode_stream fs ->
  exists r fuel1 fuel2,
    main fuel1 s = Some r /\
    main fuel2 [encode_stream fs] = Some r /\
    emitted (trace r) = fs /\
    stdout_bytes (trace r) = concat (map snd fs).
Proof.
  intros V OK E.
  destruct (ends_on_boundary fs s OK V E) as [fuel1 H1].
  assert (halts (init [encode_stream fs])
            (mkResult Finished
               (stream_events 0 fs ++ [StderrDone (N.of_nat (length fs))])))
    as [fuel2 H2].
  { destruct fs as [|f fs'].
    - now exists 1%nat.
    - apply ends_on_boundary; [|assumption|].
      + constructor; [apply encode_stream_cons_not_nil | constructor].
      + cbn [concat]. apply app_nil_r. }
  eexists _, fuel1, fuel2. split; [exact H1|]. split; [exact H2|].
  cbn [trace]. rewrite stdout_bytes_emitted.
  rewrite emitted_app, emitted_stream_events. cbn [emitted].
  now rewrite app_nil_r.
Qed.

Lemma chunking_invariance_sample :
  Forall valid_frame sample_frames /\
  chunks_ok (one_by_one (encode_stream sample_frames)) /\
  concat (one_by_one (encode_stream sample_frames))
  = encode_stream sample_frames /\
  exists r fuel1 fuel2,
    main fuel1 (one_by_one (encode_stream sample_frames)) = Some r /\
    main fuel2 [encode_stream sample_frames] = Some r /\
    emitted (trace r) = sample_frames /\
    stdout_bytes (trace r) = concat (map snd sample_frames).
Proof.
  split; [exact sample_frames_valid|].
  split; [apply one_by_one_ok|].
  split; [apply one_by_one_concat|].
  apply (chunking_invariance sample_frames
           (one_by_one (encode_stream sample_frames))).
  - exact sample_frames_valid.
  - apply one_by_one_ok.
  - apply one_by_one_concat.
Defined.

(** C9. The stream of zero frames: the peer closes at once, the buffer is
    empty, and the run ends normally with the final line and no frame. *)
Theorem empty_stream_clean_end :
  main 1 [] = Some (mkResult Finished [StderrDone 0]) /\
  emitted [StderrDone 0] = [].
Proof. split; reflexivity. Qed.

(** C7. The marker is the only field that is checked: whatever the
    widths, heights, strides and timestamps of a sequence of frames with
    valid markers, and however they change from one frame to the next,
    every frame is written, in order, and the run ends normally. *)
Theorem marker_is_only_validation (fs : list frame) (s : list bytes) :
  Forall valid_frame fs -> chunks_ok s -> concat s = encode_stream fs ->
  exists fuel,
    main fuel s
    = Some (mkResult Finished
              (stream_events 0 fs ++ [StderrDone (N.of_nat (length fs))])) /\
    emitted (stream_events 0 fs ++ [StderrDone (N.of_nat (length fs))]) = fs.
Proof.
  intros V OK E. destruct (ends_on_boundary fs s OK V E) as [fuel H].
  exists fuel. split; [exact H|].
  rewrite emitted_app, emitted_stream_events. apply app_nil_r.
Qed.

Lemma marker_is_only_validation_sample :
  Forall valid_frame sample_frames /\
  chunks_ok [encode_stream sample_frames] /\
  concat [encode_stream sample_frames] = encode_stream sample_frames /\
  exists fuel,
    main fuel [encode_stream sample_frames]
    = Some (mkResult Finished
              (stream_events 0 sample_frames
                 ++ [StderrDone (N.of_nat (length sample_frames))])) /\
    emitted (stream_events 0 sample_frames
               ++ [StderrDone (N.of_nat (length sample_frames))])
    = sample_frames.
Proof.
  assert (chunks_ok [encode_stream sample_frames]) as OK
    by (constructor; [discriminate | constructor]).
  assert (concat [encode_stream sample_frames] = encode_stream sample_frames)
    as E by apply app_nil_r.
  split; [exact sample_frames_valid|]. split; [exact OK|]. split; [exact E|].
  exact (marker_is_only_validation sample_frames [encode_stream sample_frames]
           sample_frames_valid OK E).
Defined.

Lemma need_at_loop_head (s : list bytes) (n : nat) (st : state) :
  iter n (init s) = inl st -> pc st = LoopHead -> need st = HEADER_NEED.
Proof.
  intros I P. pose proof (accounted_iter s n) as A. rewrite I in A.
  destruct A as [_ A]. rewrite P in A. tauto.
Qed.

(** C6. The fixed prefix is 36 bytes: it is the size of the format, and
    the value of [need] whenever a run is at the head of the loop.
    Unpacking any 36-byte buffer yields the integers that the wire
    protocol table assigns to it (all big-endian: marker at 0, width at 4,
    height at 8, strides at 12, 16 and 20, timestamp, 64 bits, at 24,
    payload length at 32); and the loop, once 36 bytes are buffered, binds
    its locals to those fields of the buffer and removes exactly those 36
    bytes. *)
Theorem header_layout (data : bytes) (oh : option header) (c : N)
        (s : list bytes) (o : list event) :
  HEADER_NEED <= len data ->
  HEADER_NEED = 36 /\
  Struct.calcsize HEADER_FMT = 36%nat /\
  (forall (s0 : list bytes) (n : nat) (st : state),
      iter n (init s0) = inl st -> pc st = LoopHead ->
      need st = HEADER_NEED) /\
  unpack_header (firstn 36 data) = Some (header_at data) /\
  step (mkState data HEADER_NEED oh c s o LoopHead)
  = (if magic (header_at data) =? MAGIC
     then inl (mkState (skipn 36 data) (payload_len (header_at data))
                 (Some (header_at data)) c s
                 (o ++ header_events c (header_at data)) PayloadLoop)
     else inr (mkResult Exit3
                 (o ++ [StderrBadMagic (magic (header_at data))]))).
Proof.
  intros L.
  assert (unpack_header (firstn 36 data) = Some (header_at data)) as U.
  { rewrite <- header_at_firstn. apply unpack_header_at.
    rewrite length_firstn. unfold len in L. rewrite header_need_eq in L. lia. }
  split; [reflexivity|]. split; [reflexivity|].
  split; [exact need_at_loop_head|]. split; [exact U|].
  now apply step_head_unpack.
Qed.

Lemma header_layout_sample :
  HEADER_NEED <= len (pack_header sample_header ++ [x01; x02]) /\
  unpack_header (firstn 36 (pack_header sample_header ++ [x01; x02]))
  = Some sample_header.
Proof.
  assert (HEADER_NEED <= len (pack_header sample_header ++ [x01; x02])) as L
    by (vm_compute; discriminate).
  split; [exact L|].
  destruct (header_layout (pack_header sample_header ++ [x01; x02])
              None 0 [] [] L) as (_ & _ & _ & U & _).
  exact U.
Defined.

(** C5. A stream of at least 36 bytes whose first four bytes are not the
    marker: the run ends with exit status 3 after the single line that
    reports the value found; nothing is written to stdout and nothing of
    the rest of the stream is looked at. *)
Theorem bad_first_marker (s : list bytes) :
  chunks_ok s -> HEADER_NEED <= len (concat s) ->
  Struct.from_bytes_big (firstn 4 (concat s)) <> MAGIC ->
  exists fuel,
    main fuel s
    = Some (mkResult Exit3
              [StderrBadMagic (Struct.from_bytes_big (firstn 4 (concat s)))]) /\
    emitted [StderrBadMagic (Struct.from_bytes_big (firstn 4 (concat s)))]
    = [].
Proof.
  intros OK L M.
  assert (length (firstn 36 (concat s)) = 36%nat) as L36.
  { rewrite length_firstn. unfold len in L. rewrite header_need_eq in L. lia. }
  destruct (unpack_header_total _ L36) as [h U].
  assert (magic h = Struct.from_bytes_big (firstn 4 (concat s))) as Mh.
  { rewrite unpack_header_at, header_at_firstn in U by exact L36.
    injection U as U. rewrite <- U. unfold header_at. cbn [magic].
    symmetry. exact (from_bytes_big_be_field (concat s) 0 4
                       ltac:(unfold len in L; rewrite header_need_eq in L; lia)). }
  apply pack_unpack_header in U as [P R].
  destruct (ends_with_bad_magic [] s OK (Forall_nil _) h (skipn 36 (concat s)))
    as [fuel H].
  - exact R.
  - now rewrite Mh.
  - rewrite P. cbn [encode_stream map concat app]. symmetry.
    apply firstn_skipn.
  - exists fuel. rewrite <- Mh. split; [exact H | reflexivity].
Qed.

Lemma bad_first_marker_sample :
  chunks_ok (one_by_one (pack_header sample_bad_header
                           ++ encode_stream sample_frames)) /\
  exists fuel,
    main fuel (one_by_one (pack_header sample_bad_header
                             ++ encode_stream sample_frames))
    = Some (mkResult Exit3 [StderrBadMagic 0x4F4D5431]) /\
    emitted [StderrBadMagic 0x4F4D5431] = [].
Proof.
  split; [apply one_by_one_ok|].
  apply (bad_first_marker
           (one_by_one (pack_header sample_bad_header
                          ++ encode_stream sample_frames))).
  - apply one_by_one_ok.
  - vm_compute. discriminate.
  - vm_compute. discriminate.
Defined.

(** C8. A valid header that declares a payload of length zero: with the
    header buffered, two iterations, none of which touches the socket,
    write the frame with the empty payload and return to the head of the
    loop with [need] back to 36 and the rest of the buffer intact; and on
    a stream of valid frames followed by such a header the run gets there
    however the stream is cut into chunks. *)
Theorem zero_length_payload (fs : list frame) (h : header) (rest : bytes)
        (s : list bytes) :
  Forall valid_frame fs -> header_in_range h -> magic h = MAGIC ->
  payload_len h = 0 -> chunks_ok s ->
  concat s = encode_stream fs ++ pack_header h ++ rest ->
  (forall (b : bytes) (oh : option header) (c : N) (s0 : list bytes)
          (o : list event),
      iter 2 (mkState (pack_header h ++ b) HEADER_NEED oh c s0 o LoopHead)
      = inl (mkState b HEADER_NEED (Some h) (c + 1) s0
               (o ++ frame_events c (h, [])) LoopHead)) /\
  exists n b' s',
    iter n (init s)
    = inl (mkState b' HEADER_NEED (Some h) (N.of_nat (length fs) + 1) s'
             (stream_events 0 fs ++ frame_events (N.of_nat (length fs)) (h, []))
             LoopHead) /\
    b' ++ concat s' = rest.
Proof.
  intros V R M Z OK E. split.
  - intros b oh c s0 o. cbn [iter].
    assert (slice_to (pack_header h ++ b) HEADER_NEED = pack_header h
            /\ slice_from (pack_header h ++ b) HEADER_NEED ++ [] = b ++ [])
      as [P1 P2].
    { rewrite <- (len_pack_header h).
      apply prefix_split; [| rewrite len_app; lia].
      now rewrite <- app_assoc. }
    rewrite !app_nil_r in P2.
    rewrite (step_head_unpack _ _ _ _ _ _ h);
      [| rewrite len_app, len_pack_header; lia
       | rewrite P1; now apply unpack_pack_header ].
    apply N.eqb_eq in M. rewrite M, P2.
    rewrite step_payload_emit by (rewrite Z; apply N.le_0_l).
    rewrite Z. unfold slice_from, slice_to. cbn [N.to_nat skipn firstn].
    unfold frame_events. cbn [fst]. now rewrite app_assoc.
  - assert (valid_frame (h, [])) as Vh
      by (unfold valid_frame; cbn [fst snd]; auto).
    destruct (all_frames fs (pack_header h ++ rest) None 0 [] s [] OK V E)
      as (b1 & s1 & oh1 & R1 & E1 & OK1).
    destruct (one_frame (h, []) rest oh1 (N.of_nat (length fs))
                (stream_events 0 fs) s1 b1 OK1 Vh)
      as (b' & s' & R2 & E2 & _).
    { unfold encode_frame. cbn [fst snd]. now rewrite app_nil_r. }
    destruct (reaches_trans _ _ _ R1 R2) as [n Hn].
    exists n, b', s'. split; [exact Hn | exact E2].
Qed.

Lemma zero_length_payload_sample :
  Forall valid_frame sample_frames /\
  exists n b' s',
    iter n (init (one_by_one (encode_stream sample_frames
                                ++ pack_header (mkHeader MAGIC 1 1 1 1 1 7 0)
                                ++ [x2a])))
    = inl (mkState b' HEADER_NEED (Some (mkHeader MAGIC 1 1 1 1 1 7 0))
             (N.of_nat (length sample_frames) + 1) s'
             (stream_events 0 sample_frames
                ++ frame_events (N.of_nat (length sample_frames))
                     (mkHeader MAGIC 1 1 1 1 1 7 0, []))
             LoopHead) /\
    b' ++ concat s' = [x2a].
Proof.
  split; [exact sample_frames_valid|].
  apply (zero_length_payload sample_frames (mkHeader MAGIC 1 1 1 1 1 7 0)
           [x2a]
           (one_by_one (encode_stream sample_frames
                          ++ pack_header (mkHeader MAGIC 1 1 1 1 1 7 0)
                          ++ [x2a]))).
  - exact sample_frames_valid.
  - repeat split.
  - reflexivity.
  - reflexivity.
  - apply one_by_one_ok.
  - apply one_by_one_concat.
Defined.

(** C3 (the code departs from it). The peer closes while a header is
    incomplete and the buffer is not empty: [recv] keeps returning
    [b""], [if not buf] never fires, and the loop never ends. No amount
    of fuel yields a result. *)
Theorem truncated_header_never_ends (fs : list frame) (part : bytes)
        (s : list bytes) :
  Forall valid_frame fs -> chunks_ok s ->
  part <> [] -> len part < HEADER_NEED ->
  concat s = encode_stream fs ++ part ->
  forall fuel, main fuel s = None.
Proof.
  intros V OK NE L E. exact (ends_in_header fs s OK V part NE L E).
Qed.

Lemma truncated_header_never_ends_sample :
  chunks_ok [[x4f]] /\ len [x4f] < HEADER_NEED /\
  forall fuel, main fuel [[x4f]] = None.
Proof.
  assert (chunks_ok [[x4f]]) as OK
    by (constructor; [discriminate | constructor]).
  split; [exact OK|]. split; [reflexivity|].
  apply (truncated_header_never_ends [] [x4f] [[x4f]]).
  - constructor.
  - exact OK.
  - discriminate.
  - reflexivity.
  - reflexivity.
Defined.

(** C2, as stated, fails: a complete valid header that announces four
    bytes, then the peer closes. The run ends exactly like a clean end of
    stream; no result other than [Finished] is ever produced. *)
Lemma truncated_payload_not_reported :
  main 3 [pack_header sample_header]
  = Some (mkResult Finished [stream_line sample_header; StderrDone 0]) /\
  ~ reports_truncation [pack_header sample_header].
Proof.
  assert (main 3 [pack_header sample_header]
          = Some (mkResult Finished [stream_line sample_header; StderrDone 0]))
    as H by (vm_compute; reflexivity).
  split; [exact H|].
  intros (fuel & r & Hr & NF). apply NF.
  assert (r = mkResult Finished [stream_line sample_header; StderrDone 0])
    as -> by (eapply halts_unique; eexists; eassumption).
  reflexivity.
Qed.

(** C2, amended. A stream of valid frames followed by a complete valid
    header that announces a non-empty payload, after which the peer closes
    before any byte of that payload: the run ends normally, like a clean
    end of stream, with the count of the frames before; the frames written
    are exactly those, none for the header whose payload is missing. *)
Theorem truncated_after_header (fs : list frame) (h : header)
        (s : list bytes) :
  Forall valid_frame fs -> header_in_range h -> magic h = MAGIC ->
  0 < payload_len h -> chunks_ok s ->
  concat s = encode_stream fs ++ pack_header h ->
  exists fuel r,
    main fuel s = Some r /\
    status r = Finished /\
    trace r = stream_events 0 fs ++ header_events (N.of_nat (length fs)) h
                ++ [StderrDone (N.of_nat (length fs))] /\
    emitted (trace r) = fs.
Proof.
  intros V R M L OK E.
  destruct (ends_after_header fs s OK V h R M L E) as [fuel H].
  eexists fuel, _. split; [exact H|]. cbn [status trace].
  repeat split.
  rewrite !emitted_app, emitted_stream_events, emitted_header_events.
  cbn [emitted app]. apply app_nil_r.
Qed.

Lemma truncated_after_header_sample :
  Forall valid_frame sample_frames /\
  0 < payload_len sample_header /\
  exists fuel r,
    main fuel (one_by_one (encode_stream sample_frames
                             ++ pack_header sample_header)) = Some r /\
    status r = Finished /\
    trace r = stream_events 0 sample_frames
                ++ header_events (N.of_nat (length sample_frames)) sample_header
                ++ [StderrDone (N.of_nat (length sample_frames))] /\
    emitted (trace r) = sample_frames.
Proof.
  split; [exact sample_frames_valid|]. split; [reflexivity|].
  apply (truncated_after_header sample_frames sample_header
           (one_by_one (encode_stream sample_frames
                          ++ pack_header sample_header))).
  - exact sample_frames_valid.
  - exact sample_header_in_range.
  - reflexivity.
  - reflexivity.
  - apply one_by_one_ok.
  - apply one_by_one_concat.
Defined.

Lemma accounted_prefix (total : bytes) (st : state) :
  accounted total st ->
  Forall valid_frame (emitted (out st)) /\
  exists rest, encode_stream (emitted (out st)) ++ rest = total.
Proof.
  intros [V A]. split; [exact V|].
  destruct (pc st); [destruct A as [_ A] | destruct A as (h & _ & _ & _ & A)];
    eauto.
Qed.

Lemma written_frames_complete (s : list bytes) (n : nat) :
  Forall valid_frame (emitted (out_of (iter n (init s)))) /\
  exists rest,
    encode_stream (emitted (out_of (iter n (init s)))) ++ rest = concat s.
Proof.
  pose proof (accounted_iter s n) as A.
  destruct (iter n (init s)) as [st|r]; cbn [out_of].
  - now apply accounted_prefix.
  - exact A.
Qed.

(** C4, as stated, fails: on a bad marker the script prints the marker
    and exits; neither line that carries the frame count is printed. *)
Lemma bad_marker_report_has_no_count :
  main 2 [pack_header sample_bad_header]
  = Some (mkResult Exit3 [StderrBadMagic (magic sample_bad_header)]) /\
  ~ (exists fuel r,
        main fuel [pack_header sample_bad_header] = Some r /\
        reports_count r).
Proof.
  assert (main 2 [pack_header sample_bad_header]
          = Some (mkResult Exit3 [StderrBadMagic (magic sample_bad_header)]))
    as H by (vm_compute; reflexivity).
  split; [exact H|].
  intros (fuel & r & Hr & n & C).
  assert (r = mkResult Exit3 [StderrBadMagic (magic sample_bad_header)])
    as -> by (eapply halts_unique; eexists; eassumption).
  cbn [trace In] in C. destruct C as [[C|[]]|[C|[]]]; discriminate.
Qed.

(** C10, as stated, fails: a single [recv] can deliver the first header
    together with bytes of its payload. After that iteration the buffer
    holds 38 bytes, two of them payload, and nothing has been printed. *)
Lemma payload_received_before_stream_line :
  iter 1 (init [pack_header sample_header ++ [x01; x02]])
  = inl (mkState (pack_header sample_header ++ [x01; x02]) HEADER_NEED None
           0 [] [] LoopHead) /\
  ~ stream_line_precedes_payload [pack_header sample_header ++ [x01; x02]].
Proof.
  split; [reflexivity|].
  intros H.
  specialize (H 1%nat _ eq_refl eq_refl). vm_compute in H.
  apply H. reflexivity.
Qed.

(** C10, amended. The line with the stream dimensions is printed by the
    iteration that decodes the first header (frame count still zero),
    before the inner loop runs, whatever is or is not already in the
    buffer behind the header and without a further [recv]; on later
    headers nothing is printed. So when the payload of the first frame
    never arrives in full, the line has been printed and no frame is
    ever written: the run reaches the inner loop with the line as its
    whole output, and from there it either ends with the final line and
    a count of zero, or stays in that state for ever. *)
Theorem stream_line_before_payload (h : header) (part : bytes)
        (s : list bytes) :
  header_in_range h -> magic h = MAGIC -> len part < payload_len h ->
  chunks_ok s -> concat s = pack_header h ++ part ->
  (forall (b : bytes) (oh : option header) (c : N) (s0 : list bytes)
          (o : list event),
      step (mkState (pack_header h ++ b) HEADER_NEED oh c s0 o LoopHead)
      = inl (mkState b (payload_len h) (Some h) c s0
               (if c =? 0 then o ++ [stream_line h] else o) PayloadLoop)) /\
  exists n st,
    iter n (init s) = inl st /\
    out st = [stream_line h] /\ frame_count st = 0 /\
    (step st = inr (mkResult Finished [stream_line h; StderrDone 0]) \/
     step st = inl st).
Proof.
  intros R M L OK E. split.
  - intros b oh c s0 o.
    assert (slice_to (pack_header h ++ b) HEADER_NEED = pack_header h
            /\ slice_from (pack_header h ++ b) HEADER_NEED ++ [] = b ++ [])
      as [P1 P2].
    { rewrite <- (len_pack_header h).
      apply prefix_split; [| rewrite len_app; lia].
      now rewrite <- app_assoc. }
    rewrite !app_nil_r in P2.
    rewrite (step_head_unpack _ _ _ _ _ _ h);
      [| rewrite len_app, len_pack_header; lia
       | rewrite P1; now apply unpack_pack_header ].
    apply N.eqb_eq in M. rewrite M, P2. unfold header_events.
    destruct (c =? 0); [reflexivity | now rewrite app_nil_r].
  - destruct (ends_in_payload [] s OK (Forall_nil _) h part R M L E)
      as [n Hn].
    eexists n, _. split; [exact Hn|]. cbn [out frame_count length].
    split; [reflexivity|]. split; [reflexivity|].
    rewrite step_payload_closed by exact L.
    destruct part; [left | right]; reflexivity.
Qed.

Lemma stream_line_before_payload_sample :
  len [x01; x02] < payload_len sample_header /\
  exists n st,
    iter n (init (one_by_one (pack_header sample_header ++ [x01; x02])))
    = inl st /\
    out st = [stream_line sample_header] /\ frame_count st = 0 /\
    (step st
     = inr (mkResult Finished [stream_line sample_header; StderrDone 0]) \/
     step st = inl st).
Proof.
  split; [reflexivity|].
  apply (stream_line_before_payload sample_header [x01; x02]
           (one_by_one (pack_header sample_header ++ [x01; x02]))).
  - exact sample_header_in_range.
  - reflexivity.
  - reflexivity.
  - apply one_by_one_ok.
  - apply one_by_one_concat.
Defined.

(** * The loop and the bytes of the stream *)

Section Refinement.

Lemma slices_of_prefix (b y : bytes) (n : N) :
  n <= len b ->
  slice_to (b ++ y) n = slice_to b n /\
  slice_from (b ++ y) n = slice_from b n ++ y.
Proof.
  unfold len, slice_to, slice_from. intros L. split.
  - rewrite firstn_app.
    replace (N.to_nat n - length b)%nat with 0%nat by lia.
    cbn [firstn]. apply app_nil_r.
  - rewrite skipn_app.
    now replace (N.to_nat n - length b)%nat with 0%nat by lia.
Qed.

Lemma header_at_prefix (b y : bytes) :
  HEADER_NEED <= len b -> header_at (b ++ y) = header_at b.
Proof.
  intros L. rewrite <- (header_at_firstn (b ++ y)), <- (header_at_firstn b).
  f_equal. exact (proj1 (slices_of_prefix b y HEADER_NEED L)).
Qed.

Lemma unpack_header_slice (b : bytes) :
  HEADER_NEED <= len b ->
  unpack_header (slice_to b HEADER_NEED) = Some (header_at b).
Proof.
  intros L. change (slice_to b HEADER_NEED) with (firstn 36 b).
  rewrite <- header_at_firstn. apply unpack_header_at.
  rewrite length_firstn. unfold len in L. rewrite header_need_eq in L. lia.
Qed.

Lemma len_slice_from (b : bytes) (n : N) : len (slice_from b n) = len b - n.
Proof. unfold len, slice_from. rewrite length_skipn. lia. Qed.

Lemma behaves_reaches (st st' : state) (bh : behaviour) :
  reaches st st' -> behaves st' bh -> behaves st bh.
Proof.
  intros R. destruct bh as [r|t]; cbn [behaves].
  - now apply reaches_halts.
  - intros (st2 & R2 & O & S2). exists st2.
    split; [now apply (reaches_trans _ st') | now split].
Qed.

Lemma decode_behaves (fuel : nat) :
  forall (data : bytes) (c : N) (o : list event) (oh : option header)
         (s : list bytes) (b : bytes),
    chunks_ok s -> b ++ concat s = data -> (length data < fuel)%nat ->
    behaves (mkState b HEADER_NEED oh c s o LoopHead) (decode fuel data c o).
Proof.
  induction fuel as [|fuel IH]; intros data c o oh s b OK E F; [lia|].
  cbn [decode]. destruct (N.ltb_spec (len data) HEADER_NEED) as [L|L].
  - (* the stream ends inside a header, or on a boundary *)
    eapply behaves_reaches.
    { apply drain_head; [exact OK | now rewrite E]. }
    rewrite E. destruct data as [|x data]; cbn [behaves].
    + apply halts_step_result. now rewrite step_head_closed.
    + eexists. split; [apply reaches_refl|]. split; [reflexivity|].
      now rewrite step_head_closed.
  - destruct (fill_head HEADER_NEED oh c o s b OK)
      as (b1 & s1 & R1 & L1 & E1 & OK1).
    { now rewrite E. }
    rewrite E in E1. eapply behaves_reaches; [exact R1|].
    assert (header_at data = header_at b1) as Hh
      by (rewrite <- E1; now apply header_at_prefix).
    assert (slice_from data HEADER_NEED
            = slice_from b1 HEADER_NEED ++ concat s1) as Hr
      by (rewrite <- E1; now apply slices_of_prefix).
    pose proof (step_head_unpack b1 HEADER_NEED oh c s1 o (header_at b1) L1
                  (unpack_header_slice b1 L1)) as S1.
    rewrite Hh. set (h := header_at b1) in *.
    destruct (magic h =? MAGIC).
    + (* a good marker: the inner loop *)
      eapply behaves_reaches;
        [eapply reaches_step; [exact S1 | apply reaches_refl]|].
      set (rest := slice_from data HEADER_NEED) in *.
      set (o1 := o ++ header_events c h).
      destruct (N.ltb_spec (len rest) (payload_len h)) as [P|P].
      * eapply behaves_reaches.
        { apply drain_payload; [exact OK1 | now rewrite <- Hr]. }
        rewrite <- Hr. destruct rest as [|x rest]; cbn [behaves].
        -- apply halts_step_result. now rewrite step_payload_closed.
        -- eexists. split; [apply reaches_refl|]. split; [reflexivity|].
           now rewrite step_payload_closed.
      * destruct (fill_payload (payload_len h) c o1 h s1
                    (slice_from b1 HEADER_NEED) OK1)
          as (b2 & s2 & R2 & L2 & E2 & OK2).
        { now rewrite <- Hr. }
        rewrite <- Hr in E2.
        eapply behaves_reaches; [exact R2|].
        eapply behaves_reaches.
        { eapply reaches_step; [|apply reaches_refl].
          now apply step_payload_emit. }
        destruct (slices_of_prefix b2 (concat s2) (payload_len h) L2)
          as [T1 T2].
        rewrite E2 in T1, T2. rewrite T1. apply IH; [exact OK2 | | ].
        -- now rewrite T2.
        -- assert (len (slice_from rest (payload_len h))
                   <= len data - HEADER_NEED) as B.
           { rewrite len_slice_from. unfold rest at 1.
             rewrite len_slice_from. lia. }
           unfold len in B, L. rewrite header_need_eq in B, L. lia.
    + (* a bad marker *)
      cbn [behaves]. now apply halts_step_result.
Qed.

End Refinement.

(** * Invariants of the loop *)

Section Invariant.

Variables (P : state -> Prop) (Q : result -> Prop).

Hypothesis step_keeps :
  forall st, P st ->
    match step st with
    | inl st' => P st'
    | inr r => Q r
    end.

Lemma invariant_iter (n : nat) (st : state) :
  P st ->
  match iter n st with
  | inl st' => P st'
  | inr r => Q r
  end.
Proof.
  revert st. induction n as [|n IH]; intros st H; [exact H|].
  cbn [iter]. pose proof (step_keeps st H) as K.
  destruct (step st) as [st'|r]; [now apply IH | exact K].
Qed.

Lemma invariant_run (fuel : nat) (st : state) (r : result) :
  P st -> run fuel st = Some r -> Q r.
Proof.
  revert st. induction fuel as [|fuel IH]; intros st H; [discriminate|].
  cbn [run]. pose proof (step_keeps st H) as K.
  destruct (step st) as [st'|r']; [now apply IH | now intros [= <-]].
Qed.

End Invariant.

Lemma step_cases (st : state) : step_case st (step st).
Proof.
  destruct st as [b n oh c s o p]. unfold step.
  cbn [pc buf need sock hdr out frame_count]. destruct p.
  - destruct (N.ltb_spec (len b) n) as [L|L].
    + destruct (b ++ fst (recv s)) eqn:E.
      * apply app_eq_nil in E as [-> E].
        destruct (recv s) as [chunk s'] eqn:R. cbn [fst] in E. subst chunk.
        cbn [app]. replace (finish _) with
          (mkResult Finished (o ++ [StderrDone c])) by reflexivity.
        apply HeadClosed; [exact L | now rewrite R].
      * pose proof (HeadRecv b n oh c s o L) as H. rewrite E in H.
        destruct (recv s) as [chunk s']. cbn [fst snd] in *. rewrite E.
        apply H. discriminate.
    + destruct (unpack_header (slice_to b n)) as [h|] eqn:U.
      * destruct (N.eqb_spec (magic h) MAGIC) as [M|M]; cbn [negb].
        -- replace (if c =? 0 then _ else o) with (o ++ header_events c h).
           ++ now apply HeadHeader.
           ++ unfold header_events, stream_line.
              destruct (c =? 0); [reflexivity | apply app_nil_r].
        -- now apply HeadBadMagic.
      * now apply HeadStructError.
  - destruct oh as [h|]; [|apply PayloadUnbound].
    destruct (N.ltb_spec (len b) (payload_len h)) as [L|L].
    + destruct (b ++ fst (recv s)) eqn:E.
      * apply app_eq_nil in E as [-> E].
        destruct (recv s) as [chunk s'] eqn:R. cbn [fst] in E. subst chunk.
        cbn [app]. unfold after_payload_loop. cbn [buf].
        apply N.ltb_lt in L. rewrite L. apply N.ltb_lt in L.
        replace (finish _) with
          (mkResult Finished (o ++ [StderrDone c])) by reflexivity.
        apply PayloadClosed; [exact L | now rewrite R].
      * pose proof (PayloadRecv b n h c s o L) as H. rewrite E in H.
        destruct (recv s) as [chunk s']. cbn [fst snd] in *. rewrite E.
        apply H. discriminate.
    + unfold after_payload_loop. cbn [buf out frame_count hdr sock].
      pose proof L as L'. apply N.ltb_ge in L'. rewrite L'.
      replace (if (c + 1) mod 100 =? 0 then _ else _)
        with (o ++ payload_events c (h, slice_to b (payload_len h))).
      * now apply PayloadFrame.
      * unfold payload_events. cbn [fst snd].
        destruct ((c + 1) mod 100 =? 0);
          [now rewrite <- app_assoc | reflexivity].
Qed.

(** ** What the pieces of output contain *)

Lemma emitted_payload_events (c : N) (f : frame) :
  emitted (payload_events c f) = [f].
Proof.
  unfold payload_events. destruct f as [h p]. cbn [emitted fst snd].
  now destruct ((c + 1) mod 100 =? 0).
Qed.

Lemma final_line_header_events (c : N) (h : header) :
  existsb is_final_line (header_events c h) = false.
Proof. unfold header_events. now destruct (c =? 0). Qed.

Lemma final_line_payload_events (c : N) (f : frame) :
  existsb is_final_line (payload_events c f) = false.
Proof. unfold payload_events. now destruct ((c + 1) mod 100 =? 0). Qed.

Lemma stream_line_payload_events (c : N) (f : frame) :
  filter is_stream_line (payload_events c f) = [].
Proof. unfold payload_events. now destruct ((c + 1) mod 100 =? 0). Qed.

Lemma frames_line_header_events (c k : N) (h : header) :
  ~ In (StderrFrames k) (header_events c h).
Proof.
  unfold header_events, stream_line.
  destruct (c =? 0); cbn [In]; [intros [H|[]]; discriminate | tauto].
Qed.

Lemma frames_line_payload_events (c k : N) (f : frame) :
  In (StderrFrames k) (payload_events c f)
  <-> (k = c + 1 /\ (c + 1) mod 100 = 0).
Proof.
  unfold payload_events.
  destruct (N.eqb_spec ((c + 1) mod 100) 0) as [E|E]; cbn [In]; split.
  - intros [H|[[= <-]|[]]]; [discriminate | now split].
  - intros [-> _]. auto.
  - intros [H|[]]. discriminate.
  - intros [_ H]. contradiction.
Qed.

(** ** The loop never raises *)

Lemma shape_step (st : state) :
  shape_ok st ->
  match step st with
  | inl st' => shape_ok st'
  | inr r => status r <> Crashed
  end.
Proof.
  intros H. destruct (step_cases st); unfold shape_ok in *;
    cbn [pc need hdr status] in *; try easy.
  subst n. rewrite unpack_header_slice in H1 by assumption. discriminate.
Qed.

(** ** The counter and the final lines *)

Lemma count_step (st : state) :
  count_ok st ->
  match step st with
  | inl st' => count_ok st'
  | inr r => regular_end r
  end.
Proof.
  intros [C F]. destruct (step_cases st); unfold count_ok, regular_end in *;
    cbn [frame_count out status trace] in *.
  - now split.
  - exists o. subst c. now split.
  - exact I.
  - exists o, (magic h). apply pack_unpack_header in H0 as [_ R].
    split; [reflexivity|]. split; [assumption|]. split; [apply R | exact F].
  - rewrite emitted_app, emitted_header_events, app_nil_r.
    rewrite existsb_app, F, final_line_header_events. now split.
  - exact I.
  - now split.
  - exists o. subst c. now split.
  - rewrite emitted_app, emitted_payload_events, length_app.
    rewrite existsb_app, F, final_line_payload_events. cbn [length].
    split; [lia | reflexivity].
Qed.

(** ** The progress lines *)

Lemma progress_step (st : state) :
  count_ok st -> progress_ok (frame_count st) (out st) ->
  match step st with
  | inl st' => progress_ok (frame_count st') (out st')
  | inr r => progress_ok (N.of_nat (length (emitted (trace r)))) (trace r)
  end.
Proof.
  intros [C F] G. unfold progress_ok in *.
  assert (forall e, (forall k, e <> StderrFrames k) ->
            (forall h p, e <> StdoutFrame h p) ->
            forall k, In (StderrFrames k) (out st ++ [e]) <->
              (0 < k <= N.of_nat (length (emitted (out st ++ [e]))) /\
               k mod 100 = 0)) as Last.
  { intros e NF NW k. rewrite emitted_snoc_other by exact NW. rewrite <- C.
    rewrite in_app_iff, G. cbn [In]. split; [|tauto].
    intros [H|[H|[]]]; [exact H | now destruct (NF k)]. }
  destruct (step_cases st); cbn [frame_count out status trace] in *;
    try (apply Last; discriminate).
  - exact G.
  - now rewrite <- C.
  - intros k. rewrite in_app_iff, G.
    pose proof (frames_line_header_events c k h). tauto.
  - now rewrite <- C.
  - exact G.
  - intros k. rewrite in_app_iff, G, frames_line_payload_events.
    split.
    + intros [[B M]|[-> M]]; split; auto; lia.
    + intros [B M]. destruct (N.eq_dec k (c + 1)) as [->|NE];
        [right; now split | left; split; [lia | exact M]].
Qed.

(** ** The line with the stream dimensions *)

Lemma stream_line_ok_first (st : state) :
  stream_line_ok st -> stream_line_first (out st).
Proof.
  unfold stream_line_ok, stream_line_first.
  destruct (out st) as [|e t]; [intros _; split; [cbn; lia | discriminate]|].
  intros (NS & h & -> & H). cbn [filter is_stream_line stream_line emitted].
  rewrite NS. split; [cbn; lia|].
  intros h' p fs E. rewrite E in H. subst h'. now exists t.
Qed.

Lemma stream_line_first_snoc (t : list event) (e : event) :
  is_stream_line e = false -> (forall h p, e <> StdoutFrame h p) ->
  stream_line_first t -> stream_line_first (t ++ [e]).
Proof.
  intros NS NW [L H]. unfold stream_line_first.
  rewrite filter_app, length_app, emitted_snoc_other by exact NW.
  cbn [filter]. rewrite NS. cbn [length]. split; [lia|].
  intros h p fs E. destruct (H h p fs E) as (t' & -> & NS').
  exists (t' ++ [e]). split; [reflexivity|].
  rewrite filter_app, NS'. cbn [filter]. now rewrite NS.
Qed.

Lemma stream_line_step (st : state) :
  count_ok st -> stream_line_ok st ->
  match step st with
  | inl st' => stream_line_ok st'
  | inr r => stream_line_first (trace r)
  end.
Proof.
  intros [C _] H. pose proof (stream_line_ok_first st H) as T.
  destruct (step_cases st); cbn [out trace frame_count] in T, C;
    try (apply stream_line_first_snoc; [reflexivity | discriminate | exact T]);
    try exact T;
    unfold stream_line_ok in *; cbn [out frame_count pc hdr] in *.
  - (* more of a header received *) exact H.
  - (* a header read *)
    unfold header_events. destruct (N.eqb_spec c 0) as [->|NZ].
    + destruct o as [|e t].
      * cbn [app emitted filter]. split; [reflexivity|].
        exists h. now repeat split.
      * destruct H as (_ & h0 & -> & H). cbn [emitted stream_line] in C.
        destruct (emitted t) as [|[h' p'] fs]; [now destruct H|].
        cbn [length] in C. lia.
    + rewrite app_nil_r. destruct o as [|e t]; [now destruct H|].
      destruct H as (NS & h0 & -> & H). split; [exact NS|]. exists h0.
      split; [reflexivity|].
      destruct (emitted t) as [|[h' p'] fs]; [now destruct H | exact H].
  - (* more of a payload received *)
    destruct o as [|e t]; [now destruct H | exact H].
  - (* a frame written *)
    destruct o as [|e t]; [now destruct H|].
    destruct H as (NS & h0 & -> & H). cbn [app].
    rewrite filter_app, NS, stream_line_payload_events.
    split; [reflexivity|]. exists h0. split; [reflexivity|].
    rewrite emitted_app, emitted_payload_events.
    destruct (emitted t) as [|[h' p'] fs]; cbn [app].
    + destruct H as [_ [= ->]]. reflexivity.
    + exact H.
Qed.

(** * Further properties of the receive loop *)

Lemma init_tidy (s : list bytes) :
  shape_ok (init s) /\ count_ok (init s) /\
  progress_ok (frame_count (init s)) (out (init s)) /\
  stream_line_ok (init s).
Proof.
  split; [reflexivity|]. split; [now split|]. split; [|now split].
  intros k. cbn [init frame_count out In]. split; [tauto | lia].
Qed.

Lemma decode_stream_cases (s : list bytes) :
  chunks_ok s ->
  match decode_stream (concat s) with
  | Ends r => halts (init s) r
  | Spins t =>
      diverges (init s) /\
      exists n st, iter n (init s) = inl st /\ out st = t /\ step st = inl st
  end.
Proof.
  intros OK.
  pose proof (decode_behaves (S (length (concat s))) (concat s) 0 [] None
                s [] OK eq_refl (Nat.lt_succ_diag_r _)) as B.
  unfold decode_stream. destruct (decode _ _ _ _) as [r|t]; cbn [behaves] in B.
  - exact B.
  - destruct B as (st & R & O & S1). split.
    + eapply reaches_diverges; [exact R | now apply step_fixed_diverges].
    + destruct R as [n R]. now exists n, st.
Qed.

(** X1. The loop computes [decode_stream]: for every byte stream and
    every cut of it into non-empty chunks, the run ends with the result
    that [decode_stream] gives for the bytes, or, where [decode_stream]
    says so, never ends and stays in a state with the output it gives. *)
Theorem loop_decodes_stream (s : list bytes) :
  chunks_ok s ->
  match decode_stream (concat s) with
  | Ends r => exists fuel, main fuel s = Some r
  | Spins t =>
      (forall fuel, main fuel s = None) /\
      exists n st, iter n (init s) = inl st /\ out st = t /\ step st = inl st
  end.
Proof. exact (decode_stream_cases s). Qed.

Lemma loop_decodes_stream_sample :
  chunks_ok (one_by_one (encode_stream sample_frames ++ [x4f; x4d])) /\
  (forall fuel,
      main fuel (one_by_one (encode_stream sample_frames ++ [x4f; x4d]))
      = None) /\
  exists n st,
    iter n (init (one_by_one (encode_stream sample_frames ++ [x4f; x4d])))
    = inl st /\
    out st = stream_events 0 sample_frames /\ step st = inl st.
Proof.
  split; [apply one_by_one_ok|].
  pose proof (loop_decodes_stream
                (one_by_one (encode_stream sample_frames ++ [x4f; x4d]))
                (one_by_one_ok _)) as H.
  rewrite one_by_one_concat in H. exact H.
Defined.

(** X2. Chunking invariance for every byte stream, well-formed or not: two
    cuts of the same bytes into non-empty chunks give runs that end with
    the same result, or that both never end. *)
Theorem chunking_invariance_all_streams (s1 s2 : list bytes) :
  chunks_ok s1 -> chunks_ok s2 -> concat s1 = concat s2 ->
  (forall r, (exists fuel, main fuel s1 = Some r)
             <-> (exists fuel, main fuel s2 = Some r)) /\
  ((forall fuel, main fuel s1 = None) <-> (forall fuel, main fuel s2 = None)).
Proof.
  intros OK1 OK2 E.
  pose proof (decode_stream_cases s1 OK1) as B1.
  pose proof (decode_stream_cases s2 OK2) as B2.
  rewrite E in B1. unfold main, halts, diverges in *.
  destruct (decode_stream (concat s2)) as [r0|t].
  - split.
    + intros r. split; intros H.
      * now rewrite (halts_unique (init s1) r r0 H B1).
      * now rewrite (halts_unique (init s2) r r0 H B2).
    + destruct B1 as [f1 H1], B2 as [f2 H2]. split; intros D.
      * rewrite D in H1. discriminate.
      * rewrite D in H2. discriminate.
  - destruct B1 as [D1 _], B2 as [D2 _]. split; [|tauto].
    intros r. split; intros [fuel H].
    + rewrite D1 in H. discriminate.
    + rewrite D2 in H. discriminate.
Qed.

Lemma chunking_invariance_all_streams_sample :
  chunks_ok (one_by_one (encode_stream sample_frames
                           ++ pack_header sample_bad_header)) /\
  chunks_ok [encode_stream sample_frames ++ pack_header sample_bad_header] /\
  (forall r,
      (exists fuel,
          main fuel (one_by_one (encode_stream sample_frames
                                   ++ pack_header sample_bad_header))
          = Some r)
      <-> (exists fuel,
              main fuel [encode_stream sample_frames
                           ++ pack_header sample_bad_header] = Some r)).
Proof.
  assert (chunks_ok [encode_stream sample_frames
                       ++ pack_header sample_bad_header]) as OK2
    by (constructor; [discriminate | constructor]).
  split; [apply one_by_one_ok|]. split; [exact OK2|].
  apply (chunking_invariance_all_streams
           (one_by_one (encode_stream sample_frames
                          ++ pack_header sample_bad_header))
           [encode_stream sample_frames ++ pack_header sample_bad_header]).
  - apply one_by_one_ok.
  - exact OK2.
  - rewrite one_by_one_concat. symmetry. apply app_nil_r.
Defined.

(** X3. Whatever the socket delivers, [main] never ends in an uncaught
    exception: [struct.unpack] is only ever given 36 bytes and the inner
    loop only runs with the header locals bound. *)
Theorem never_raises (s : list bytes) (fuel : nat) (r : result) :
  main fuel s = Some r -> status r <> Crashed.
Proof.
  apply (invariant_run shape_ok (fun r => status r <> Crashed) shape_step).
  reflexivity.
Qed.

Lemma never_raises_sample :
  main 3 [[x00]; pack_header sample_bad_header]
  = Some (mkResult Exit3 [StderrBadMagic 0x004F4D54]) /\
  Exit3 <> Crashed.
Proof.
  assert (main 3 [[x00]; pack_header sample_bad_header]
          = Some (mkResult Exit3 [StderrBadMagic 0x004F4D54])) as H
    by (vm_compute; reflexivity).
  split; [exact H|].
  exact (never_raises _ _ _ H).
Defined.

Lemma regular_end_run (s : list bytes) (fuel : nat) (r : result) :
  main fuel s = Some r -> regular_end r.
Proof.
  apply (invariant_run count_ok regular_end count_step). now split.
Qed.

(** X4. Whatever the socket delivers, when the run ends normally the last
    line is the final line, printed once, and the count it carries is
    the number of frames written to stdout. *)
Theorem done_line_counts_frames (s : list bytes) (fuel : nat) (r : result) :
  main fuel s = Some r -> status r = Finished ->
  exists t,
    trace r = t ++ [StderrDone (N.of_nat (length (emitted t)))] /\
    existsb is_final_line t = false.
Proof.
  intros H F. apply regular_end_run in H. unfold regular_end in H.
  now rewrite F in H.
Qed.

Lemma done_line_counts_frames_sample :
  main 8 [encode_stream sample_frames]
  = Some (mkResult Finished
            (stream_events 0 sample_frames ++ [StderrDone 3])) /\
  exists t,
    stream_events 0 sample_frames ++ [StderrDone 3]
    = t ++ [StderrDone (N.of_nat (length (emitted t)))] /\
    existsb is_final_line t = false.
Proof.
  assert (main 8 [encode_stream sample_frames]
          = Some (mkResult Finished
                    (stream_events 0 sample_frames ++ [StderrDone 3]))) as H
    by (vm_compute; reflexivity).
  split; [exact H|].
  exact (done_line_counts_frames _ _ _ H eq_refl).
Defined.

Lemma be_field_app_l (x y : bytes) (off w : nat) :
  (off + w <= length x)%nat -> be_field (x ++ y) off w = be_field x off w.
Proof.
  intros L. unfold be_field. f_equal. apply map_ext_in. intros i Hi.
  apply in_seq in Hi. now rewrite app_nth1 by lia.
Qed.

Lemma be_field_app_r (x y : bytes) (off w : nat) :
  be_field (x ++ y) (length x + off) w = be_field y off w.
Proof.
  unfold be_field. f_equal. apply map_ext. intros i.
  now rewrite <- Nat.add_assoc, app_nth2_plus.
Qed.

Lemma bad_magic_step (total : bytes) (st : state) :
  accounted total st ->
  match step st with
  | inl st' => accounted total st'
  | inr r => bad_magic_located total r
  end.
Proof.
  intros A. pose proof (accounted_step total st A) as K.
  destruct (step_cases st); try exact K; unfold bad_magic_located;
    cbn [trace]; intros t m E.
  - apply app_inj_tail in E as [_ E]. discriminate.
  - (* no struct error at the head of the loop *)
    destruct A as [_ [HN _]]. cbn [need] in HN. subst n.
    rewrite unpack_header_slice in H0 by assumption. discriminate.
  - apply app_inj_tail in E as [<- [= <-]].
    destruct A as [_ [HN A]]. cbn [need out buf sock] in *.
    subst n. rewrite unpack_header_slice in H0 by assumption.
    injection H0 as <-. rewrite <- A. unfold header_at. cbn [magic].
    rewrite <- (Nat.add_0_r (length _)), be_field_app_r.
    symmetry. apply be_field_app_l.
    unfold len in H. rewrite header_need_eq in H. lia.
  - (* no unbound local in the inner loop *)
    destruct A as [_ (h & [=] & _)].
  - apply app_inj_tail in E as [_ E]. discriminate.
Qed.

(** X5. Whatever the socket delivers, a run with exit status 3 has printed,
    as its last line and only once, a marker other than the protocol
    constant: the 32-bit big-endian word found in the stream right after
    the frames written so far. The final line with the frame count is
    not printed. *)
Theorem exit3_reports_bad_magic (s : list bytes) (fuel : nat) (r : result) :
  main fuel s = Some r -> status r = Exit3 ->
  exists t m,
    trace r = t ++ [StderrBadMagic m] /\
    m <> MAGIC /\
    m = be_field (concat s) (length (encode_stream (emitted t))) 4 /\
    existsb is_final_line t = false.
Proof.
  intros H F. pose proof (regular_end_run s fuel r H) as R.
  unfold regular_end in R. rewrite F in R.
  destruct R as (t & m & E & NM & _ & NF).
  exists t, m. repeat split; auto.
  apply (invariant_run (accounted (concat s)) (bad_magic_located (concat s))
           (bad_magic_step (concat s)) fuel (init s) r
           (accounted_init s) H t m E).
Qed.

Lemma exit3_reports_bad_magic_sample :
  main 10 [encode_stream sample_frames ++ [x00; x4f; x4d];
           [x54; x30; x00]; repeat x00 30]
  = Some (mkResult Exit3
            (stream_events 0 sample_frames ++ [StderrBadMagic 0x004F4D54])) /\
  exists t m,
    stream_events 0 sample_frames ++ [StderrBadMagic 0x004F4D54]
    = t ++ [StderrBadMagic m] /\
    m <> MAGIC /\
    m = be_field
          (concat [encode_stream sample_frames ++ [x00; x4f; x4d];
                   [x54; x30; x00]; repeat x00 30])
          (length (encode_stream (emitted t))) 4 /\
    existsb is_final_line t = false.
Proof.
  assert (main 10 [encode_stream sample_frames ++ [x00; x4f; x4d];
                   [x54; x30; x00]; repeat x00 30]
          = Some (mkResult Exit3
                    (stream_events 0 sample_frames
                       ++ [StderrBadMagic 0x004F4D54]))) as H
    by (vm_compute; reflexivity).
  split; [exact H|].
  exact (exit3_reports_bad_magic _ _ _ H eq_refl).
Defined.

Lemma tidy_iter (s : list bytes) (n : nat) :
  match iter n (init s) with
  | inl st =>
      count_ok st /\ progress_ok (frame_count st) (out st) /\
      stream_line_ok st
  | inr r =>
      progress_ok (N.of_nat (length (emitted (trace r)))) (trace r) /\
      stream_line_first (trace r)
  end.
Proof.
  apply (invariant_iter
           (fun st => count_ok st /\ progress_ok (frame_count st) (out st) /\
                      stream_line_ok st)
           (fun r => progress_ok (N.of_nat (length (emitted (trace r))))
                       (trace r) /\ stream_line_first (trace r))).
  - intros st (C & G & L).
    pose proof (count_step st C) as K1.
    pose proof (progress_step st C G) as K2.
    pose proof (stream_line_step st C L) as K3.
    destruct (step st); tauto.
  - destruct (init_tidy s) as (_ & C & G & L). tauto.
Qed.

(** X6. Whatever the socket delivers, at any moment of a run the "Frames: k"
    lines printed so far are exactly those of the multiples of 100 up to
    the number of frames written so far. *)
Theorem progress_line_every_100_frames (s : list bytes) (n : nat) (k : N) :
  In (StderrFrames k) (out_of (iter n (init s)))
  <-> (0 < k <= N.of_nat (length (emitted (out_of (iter n (init s)))))
       /\ k mod 100 = 0).
Proof.
  pose proof (tidy_iter s n) as T.
  destruct (iter n (init s)) as [st|r]; cbn [out_of].
  - destruct T as ([C _] & G & _). rewrite <- C. apply G.
  - destruct T as [G _]. apply G.
Qed.

(** X7. Whatever the socket delivers, at any moment of a run the output has
    at most one line with the stream dimensions; once a frame has been
    written that line is the first line of the output and shows the
    header of the first frame written, also when later headers carry
    other dimensions. *)
Theorem stream_line_only_for_first_header (s : list bytes) (n : nat) :
  stream_line_first (out_of (iter n (init s))).
Proof.
  pose proof (tidy_iter s n) as T.
  destruct (iter n (init s)) as [st|r]; cbn [out_of].
  - now apply stream_line_ok_first.
  - tauto.
Qed.

(** X8. The sibling of the loop at the head: a valid header, some but not
    all of its payload, then the peer closes. [recv] keeps returning
    [b""], the buffer is not empty, and the inner loop never ends. *)
Theorem partial_payload_never_ends (fs : list frame) (h : header)
        (part : bytes) (s : list bytes) :
  Forall valid_frame fs -> header_in_range h -> magic h = MAGIC ->
  part <> [] -> len part < payload_len h -> chunks_ok s ->
  concat s = encode_stream fs ++ pack_header h ++ part ->
  forall fuel, main fuel s = None.
Proof.
  intros V R M NE L OK E.
  exact (ends_in_partial_payload fs s OK V h part R M NE L E).
Qed.

Lemma partial_payload_never_ends_sample :
  [x01; x02] <> [] /\ len [x01; x02] < payload_len sample_header /\
  forall fuel,
    main fuel (one_by_one (encode_stream sample_frames
                             ++ pack_header sample_header ++ [x01; x02]))
    = None.
Proof.
  split; [discriminate|]. split; [reflexivity|].
  apply (partial_payload_never_ends sample_frames sample_header [x01; x02]).
  - exact sample_frames_valid.
  - exact sample_header_in_range.
  - reflexivity.
  - discriminate.
  - reflexivity.
  - apply one_by_one_ok.
  - apply one_by_one_concat.
Defined.

(** * Further properties of the header decoding *)

(** X11. [unpack_header] accepts exactly the buffers of 36 bytes; on those
    it yields the fields of the wire protocol table, each within its
    declared width (32 bits, 64 for the timestamp); on any other buffer
    it fails. *)
Theorem unpack_header_accepts_36_bytes (data : bytes) :
  (length data = 36%nat /\
   unpack_header data = Some (header_at data) /\
   header_in_range (header_at data))
  \/ (length data <> 36%nat /\ unpack_header data = None).
Proof.
  destruct (Nat.eq_dec (length data) 36) as [L|L].
  - left. pose proof (unpack_header_at data L) as U.
    split; [exact L|]. split; [exact U|].
    now apply pack_unpack_header in U.
  - right. split; [exact L|].
    destruct (unpack_header data) as [h|] eqn:U; [|reflexivity].
    apply unpack_header_length in U. contradiction.
Qed.

(** X12. Decoding loses nothing: two buffers that decode to the same header
    are the same 36 bytes. *)
Theorem unpack_header_injective (a b : bytes) (h : header) :
  unpack_header a = Some h -> unpack_header b = Some h -> a = b.
Proof.
  intros Ua Ub. apply pack_unpack_header in Ua as [<- _].
  now apply pack_unpack_header in Ub as [<- _].
Qed.

Lemma unpack_header_injective_sample :
  unpack_header (pack_header sample_header) = Some sample_header /\
  unpack_header (firstn 36 (pack_header sample_header ++ [x00]))
  = Some sample_header /\
  pack_header sample_header
  = firstn 36 (pack_header sample_header ++ [x00]).
Proof.
  assert (unpack_header (pack_header sample_header) = Some sample_header)
    as Ua by reflexivity.
  assert (unpack_header (firstn 36 (pack_header sample_header ++ [x00]))
          = Some sample_header) as Ub by reflexivity.
  split; [exact Ua|]. split; [exact Ub|].
  exact (unpack_header_injective _ _ _ Ua Ub).
Defined.

(** X10. A prefix of valid frames is always delivered: whatever bytes follow
    them and however the stream is cut, the run gets to the head of the
    loop with exactly those frames written and counted, and with what
    follows them still ahead, in the buffer and on the socket. *)
Theorem valid_prefix_is_written (fs : list frame) (rest : bytes)
        (s : list bytes) :
  Forall valid_frame fs -> chunks_ok s ->
  concat s = encode_stream fs ++ rest ->
  exists n st,
    iter n (init s) = inl st /\
    pc st = LoopHead /\
    out st = stream_events 0 fs /\
    emitted (out st) = fs /\
    frame_count st = N.of_nat (length fs) /\
    buf st ++ concat (sock st) = rest.
Proof.
  intros V OK E.
  destruct (all_frames fs rest None 0 [] s [] OK V E)
    as (b & s' & oh & [n R] & E' & _).
  eexists n, _. split; [exact R|]. cbn [pc out frame_count buf sock app].
  repeat split; [apply emitted_stream_events | exact E'].
Qed.

Lemma valid_prefix_is_written_sample :
  Forall valid_frame sample_frames /\
  exists n st,
    iter n (init (one_by_one (encode_stream sample_frames ++ [xff; xff])))
    = inl st /\
    pc st = LoopHead /\
    out st = stream_events 0 sample_frames /\
    emitted (out st) = sample_frames /\
    frame_count st = N.of_nat (length sample_frames) /\
    buf st ++ concat (sock st) = [xff; xff].
Proof.
  split; [exact sample_frames_valid|].
  apply (valid_prefix_is_written sample_frames [xff; xff]).
  - exact sample_frames_valid.
  - apply one_by_one_ok.
  - apply one_by_one_concat.
Defined.

Lemma recv_fixed (s : list bytes) : snd (recv s) = s -> s = [].
Proof.
  destruct s as [|c s]; [reflexivity|]. cbn [recv snd]. intros E.
  apply (f_equal (@length _)) in E. cbn [length] in E. lia.
Qed.

Lemma step_case_fixed (st : state) (x : state + result) :
  step_case st x -> x = inl st ->
  sock st = [] /\ buf st <> [] /\
  match pc st with
  | LoopHead => len (buf st) < need st
  | PayloadLoop => exists h, hdr st = Some h /\ len (buf st) < payload_len h
  end.
Proof.
  intros SC. destruct SC; intros E; try discriminate;
    injection E as Eb Es; apply recv_fixed in Es; subst s;
    cbn [recv fst] in *; rewrite app_nil_r in *;
    cbn [sock buf pc need hdr]; eauto.
Qed.

Lemma fixed_state_cut_short (total : bytes) (st : state) :
  accounted total st -> step st = inl st ->
  exists fs part,
    Forall valid_frame fs /\ total = encode_stream fs ++ part /\
    cut_short part.
Proof.
  intros [V A] F.
  destruct (step_case_fixed st _ (step_cases st) F) as (S0 & NE & L).
  rewrite S0 in A. cbn [concat] in A. rewrite app_nil_r in A.
  exists (emitted (out st)). destruct (pc st).
  - destruct A as [HN A]. rewrite HN in L.
    exists (buf st). split; [exact V|]. split; [now symmetry|].
    left. now split.
  - destruct A as (h & Hh & R & M & A). destruct L as (h' & Hh' & L).
    rewrite Hh in Hh'. injection Hh' as <-.
    exists (pack_header h ++ buf st). split; [exact V|].
    split; [now symmetry|]. right. exists h, (buf st).
    split; [reflexivity|]. split; [exact R|]. split; [exact M|].
    split; assumption.
Qed.

(** X9. The runs that never end are exactly those on a stream that the peer
    cut short: some valid frames, then an incomplete header, or a valid
    header with an incomplete payload, with at least one byte of the
    incomplete part delivered. *)
Theorem never_ends_iff_cut_short (s : list bytes) :
  chunks_ok s ->
  ((forall fuel, main fuel s = None) <->
   exists fs part,
     Forall valid_frame fs /\ concat s = encode_stream fs ++ part /\
     cut_short part).
Proof.
  intros OK. split.
  - intros D. pose proof (decode_stream_cases s OK) as B.
    destruct (decode_stream (concat s)) as [r|t].
    + destruct B as [fuel H]. unfold main in D. rewrite D in H.
      discriminate.
    + destruct B as (_ & n & st & I & _ & F).
      pose proof (accounted_iter s n) as A. rewrite I in A.
      exact (fixed_state_cut_short (concat s) st A F).
  - intros (fs & part & V & E & [[NE L] | (h & p & -> & R & M & NE & L)]).
    + exact (ends_in_header fs s OK V part NE L E).
    + exact (ends_in_partial_payload fs s OK V h p R M NE L E).
Qed.

Lemma never_ends_iff_cut_short_sample :
  chunks_ok [[x4f; x4d]; [x54]] /\
  ((forall fuel, main fuel [[x4f; x4d]; [x54]] = None) <->
   exists fs part,
     Forall valid_frame fs /\
     concat [[x4f; x4d]; [x54]] = encode_stream fs ++ part /\
     cut_short part).
Proof.
  assert (chunks_ok [[x4f; x4d]; [x54]]) as OK
    by (repeat constructor; discriminate).
  split; [exact OK|].
  exact (never_ends_iff_cut_short [[x4f; x4d]; [x54]] OK).
Defined.

(** * Fatal endings *)

Lemma final_line_stream_events (fs : list frame) (c : N) :
  existsb is_final_line (stream_events c fs) = false.
Proof.
  revert c. induction fs as [|f fs IH]; intros c; [reflexivity|].
  cbn [stream_events]. unfold frame_events.
  now rewrite !existsb_app, final_line_header_events,
    final_line_payload_events, IH.
Qed.

Lemma frames_line_stream_events (fs : list frame) (c k : N) :
  In (StderrFrames k) (stream_events c fs)
  <-> (c < k <= c + N.of_nat (length fs) /\ k mod 100 = 0).
Proof.
  revert c. induction fs as [|f fs IH]; intros c.
  - cbn [stream_events In length]. split; [tauto | lia].
  - cbn [stream_events]. unfold frame_events.
    rewrite !in_app_iff, frames_line_payload_events, IH.
    pose proof (frames_line_header_events c k (fst f)) as NH.
    cbn [length]. split.
    + intros [[H|[-> M]]|[B M]]; [contradiction | split | split]; auto; lia.
    + intros [B M]. destruct (N.eq_dec k (c + 1)) as [->|NE];
        [left; right; now split | right; split; [lia | exact M]].
Qed.

Lemma frames_line_tail_result (fs : list frame) (t : fatal_tail) (k : N) :
  In (StderrFrames k) (trace (tail_result fs t))
  <-> (0 < k <= N.of_nat (length fs) /\ k mod 100 = 0).
Proof.
  destruct t as [h rest | h]; cbn [tail_result trace];
    rewrite !in_app_iff, frames_line_stream_events; cbn [In].
  - split; [intros [H|[H|[]]]; [exact H | discriminate] | tauto].
  - pose proof (frames_line_header_events (N.of_nat (length fs)) k h) as NH.
    split; [intros [H|[H|[H|[]]]]; [exact H | contradiction | discriminate]
           | tauto].
Qed.

Lemma tail_result_last_line (fs : list frame) (t : fatal_tail) :
  exists before,
    trace (tail_result fs t) = before ++ [tail_line fs t] /\
    existsb is_final_line before = false.
Proof.
  destruct t as [h rest | h]; cbn [tail_result trace tail_line].
  - exists (stream_events 0 fs). split; [reflexivity|].
    apply final_line_stream_events.
  - exists (stream_events 0 fs ++ header_events (N.of_nat (length fs)) h).
    split; [now rewrite app_assoc|].
    now rewrite existsb_app, final_line_stream_events,
      final_line_header_events.
Qed.

(** C4, amended. After any number of valid frames, a header with a wrong
    marker halts the loop at once, with exit status 3: the output is that
    of the frames before followed by the "Bad magic" line, which is
    printed once, as the last line. The final line with the frame count
    is not printed; the only counts in the output are the progress lines
    for the multiples of 100 up to the number of frames written, printed
    when those frames were written. A valid header after which the peer
    closes with no payload byte halts the loop too, as a normal end, with
    the final line that carries the count, printed once, as the last
    line. In both cases the frames written are exactly the complete
    frames before. And in every run, on any input and at any moment,
    every frame written is complete and the frames written are, byte for
    byte, a prefix of the stream: no partial frame is ever written. *)
Theorem fatal_conditions :
  (forall (fs : list frame) (t : fatal_tail) (s : list bytes),
      Forall valid_frame fs -> tail_ok t -> chunks_ok s ->
      concat s = encode_stream fs ++ tail_bytes t ->
      (exists fuel, main fuel s = Some (tail_result fs t)) /\
      emitted (trace (tail_result fs t)) = fs /\
      (exists before,
          trace (tail_result fs t) = before ++ [tail_line fs t] /\
          existsb is_final_line before = false) /\
      (forall k,
          In (StderrFrames k) (trace (tail_result fs t))
          <-> (0 < k <= N.of_nat (length fs) /\ k mod 100 = 0))) /\
  (forall (s : list bytes) (n : nat),
      Forall valid_frame (emitted (out_of (iter n (init s)))) /\
      exists rest,
        encode_stream (emitted (out_of (iter n (init s)))) ++ rest
        = concat s).
Proof.
  split.
  - intros fs t s V T OK E. split; [|split; [|split]].
    + destruct t as [h rest | h]; cbn [tail_ok tail_bytes tail_result] in *.
      * destruct T as [R M].
        exact (ends_with_bad_magic fs s OK V h rest R M E).
      * destruct T as (R & M & L).
        exact (ends_after_header fs s OK V h R M L E).
    + destruct t as [h rest | h]; cbn [tail_result trace];
        rewrite !emitted_app, emitted_stream_events,
          ?emitted_header_events; cbn [emitted app]; apply app_nil_r.
    + apply tail_result_last_line.
    + intros k. apply frames_line_tail_result.
  - intros s n. apply written_frames_complete.
Qed.

Lemma fatal_conditions_sample :
  Forall valid_frame sample_frames /\
  tail_ok (BadMarker sample_bad_header [x00; x01]) /\
  chunks_ok (one_by_one (encode_stream sample_frames
                           ++ pack_header sample_bad_header
                           ++ [x00; x01])) /\
  (exists fuel,
      main fuel (one_by_one (encode_stream sample_frames
                               ++ pack_header sample_bad_header
                               ++ [x00; x01]))
      = Some (mkResult Exit3
                (stream_events 0 sample_frames
                   ++ [StderrBadMagic 0x4F4D5431]))) /\
  (exists before,
      stream_events 0 sample_frames ++ [StderrBadMagic 0x4F4D5431]
      = before ++ [StderrBadMagic 0x4F4D5431] /\
      existsb is_final_line before = false).
Proof.
  assert (tail_ok (BadMarker sample_bad_header [x00; x01])) as T
    by (split; [exact sample_bad_header_in_range | discriminate]).
  split; [exact sample_frames_valid|]. split; [exact T|].
  split; [apply one_by_one_ok|].
  destruct (proj1 fatal_conditions sample_frames
              (BadMarker sample_bad_header [x00; x01])
              (one_by_one (encode_stream sample_frames
                             ++ pack_header sample_bad_header
                             ++ [x00; x01]))
              sample_frames_valid T (one_by_one_ok _)
              (one_by_one_concat _)) as (H & _ & L & _).
  split; [exact H | exact L].
Defined.
